(** * django-i18n-model: translation models for Django

    A shallow embedding of [i18n_model/models.py] (the [I18nBase] metaclass,
    the [I18nManager] manager, [I18nModel.translate]) and of the [translate]
    template tag of [i18n_model/templatetags/i18n_model.py], with the
    properties of the schema derivation, of the per-language accessors and of
    the upsert operation.

    Python dictionaries are finite maps ([gmap]), exceptions are the [Raise]
    branch of [result], and the pieces of Django the code calls into (the
    app registry, the query primitives [filter]/[get]/[create]/[save], the
    enforcement of unique constraints) are small executable functions. *)

From Stdlib Require Import ZArith Ascii String.
From stdpp Require Import base option strings list gmap fin_maps.

Open Scope string_scope.
Open Scope Z_scope.

(** ** Exceptions *)

Inductive exn :=
| ImproperlyConfigured (msg : string)
| KeyError
| AttributeError
| ImportError
| IndexError
| TypeError
| DoesNotExist
| MultipleObjectsReturned
| IntegrityError
| ValueError.

#[global] Instance exn_eq_dec : EqDecision exn.
Proof. solve_decision. Defined.

Inductive result (A : Type) :=
| Ok (a : A)
| Raise (e : exn).
Arguments Ok {A} a.
Arguments Raise {A} e.

#[global] Instance result_ret : MRet result := fun A a => Ok a.
#[global] Instance result_bind : MBind result := fun A B f m =>
  match m with
  | Ok a => f a
  | Raise e => Raise e
  end.
#[global] Instance result_fmap : FMap result := fun A B f m =>
  match m with
  | Ok a => Ok (f a)
  | Raise e => Raise e
  end.

(** ** Python strings *)

Module PyStr.

(** ['.' in s] *)
Fixpoint contains_char (c : ascii) (s : string) : bool :=
  match s with
  | EmptyString => false
  | String d rest => if Ascii.eqb c d then true else contains_char c rest
  end.

(** [s.split(sep)] for a one-character separator: the pieces between the
    occurrences of [sep]; [acc] holds the current piece, reversed. *)
Fixpoint split_aux (sep : ascii) (acc : string) (s : string) : list string :=
  match s with
  | EmptyString => [String.rev acc]
  | String d rest =>
      if Ascii.eqb sep d then String.rev acc :: split_aux sep EmptyString rest
      else split_aux sep (String d acc) rest
  end.

Definition split (sep : ascii) (s : string) : list string :=
  split_aux sep EmptyString s.

(** [s.endswith(suffix)] *)
Definition endswith (s suffix : string) : bool :=
  let n := String.length s in
  let m := String.length suffix in
  if (m <=? n)%nat then String.eqb (String.substring (n - m) m s) suffix
  else false.

(** [s[:-k]] *)
Definition drop_last (k : nat) (s : string) : string :=
  String.substring 0 (String.length s - k) s.

(** [s.replace(a, b)] for one-character [a] and [b] *)
Fixpoint replace (a b : ascii) (s : string) : string :=
  match s with
  | EmptyString => EmptyString
  | String d rest =>
      String (if Ascii.eqb a d then b else d) (replace a b rest)
  end.

(** the characters of [s], each as a one-character string (iterating a
    Python string) *)
Fixpoint chars (s : string) : list string :=
  match s with
  | EmptyString => []
  | String d rest => String d EmptyString :: chars rest
  end.

End PyStr.

(** ** Python values held by [Meta.unique_together] *)

#[warnings="-register-all"]
Inductive pyval :=
| PStr (s : string)
| PTuple (items : list pyval)
| PList (items : list pyval).

Definition is_str (v : pyval) : bool :=
  match v with
  | PStr _ => true
  | _ => false
  end.

(** [v[0]] *)
Definition py_first (v : pyval) : result pyval :=
  match v with
  | PStr (String c _) => Ok (PStr (String c EmptyString))
  | PTuple (x :: _) => Ok x
  | PList (x :: _) => Ok x
  | _ => Raise IndexError
  end.

(** [v += t] for a tuple [t]: a tuple is concatenated, a list is extended
    with the elements of [t], a string raises. *)
Definition py_iadd (v : pyval) (t : list pyval) : result pyval :=
  match v with
  | PTuple items => Ok (PTuple (items ++ t))
  | PList items => Ok (PList (items ++ t))
  | PStr _ => Raise TypeError
  end.

(** the elements of a tuple or list; a string iterates over its characters *)
Definition py_items (v : pyval) : list pyval :=
  match v with
  | PTuple items => items
  | PList items => items
  | PStr s => PStr <$> PyStr.chars s
  end.

(** ** Fields, models, class attributes *)

Inductive field_class :=
| TextField
| CharField
| SlugField
| EmailField
| IntegerField
| BooleanField
| DateTimeField
| AutoField
| RelatedField.

#[global] Instance field_class_eq_dec : EqDecision field_class.
Proof. solve_decision. Defined.

Record Field := mkField {
  name : string;
  ftype : field_class;
  _unique : bool;
}.

#[global] Instance Field_eq_dec : EqDecision Field.
Proof. solve_decision. Defined.

(** A model class as the metaclass sees it: [__name__] and [_meta.fields]. *)
Record Model := mkModel {
  __name__ : string;
  _meta_fields : list Field;
}.

#[global] Instance Model_eq_dec : EqDecision Model.
Proof. solve_decision. Defined.

(** What a class body binds to a name: a field, or the foreign key the
    metaclass adds. *)
Inductive class_attr :=
| AField (f : Field)
| AForeignKey (to : Model) (related_name : string) (fk_editable : bool).

(** [Meta.source_model]: a class or a string *)
Inductive source_ref :=
| SrcClass (m : Model)
| SrcStr (s : string).

Record meta_options := mkMeta {
  source_model : option source_ref;
  translation_fields : option (list string);
  unique_together : option pyval;
}.

(** The [attrs] dictionary of the class statement: [__module__], [Meta] when
    the body declares one, and the other members. *)
Record class_attrs := mkAttrs {
  __module__ : string;
  Meta : option meta_options;
  members : gmap string class_attr;
}.

(** The app registry behind [get_model] and the modules behind
    [__import__]. *)
Record environment := mkEnv {
  app_models : gmap (string * string) Model;
  modules : gmap string (gmap string Model);
}.

Definition get_model (env : environment) (app_label model_name : string)
  : option Model :=
  app_models env !! (app_label, model_name).

Definition get_class (env : environment) (classname modulename : string)
  : result Model :=
  match modules env !! modulename with
  | None => Raise ImportError
  | Some from_module =>
      match from_module !! classname with
      | None => Raise AttributeError
      | Some c => Ok c
      end
  end.

(** ** The metaclass [I18nBase] *)

Module I18nBase.

(** The variable [source] of [__new__] after the string lookups:
    [None], a falsy value that is not [None] (the empty string), or a
    class. *)
Inductive source_state :=
| SourceNone
| SourceFalsy
| SourceClass (m : Model).

(** Lines 89-111: read [Meta.source_model] and resolve a string. *)
Definition lookup_source (env : environment) (attrs : class_attrs)
    (source : option source_ref) : result source_state :=
  match source with
  | None => Ok SourceNone
  | Some (SrcClass m) => Ok (SourceClass m)
  | Some (SrcStr EmptyString) => Ok SourceFalsy
  | Some (SrcStr s) =>
      if PyStr.contains_char "." s then
        let parts := PyStr.split "." s in
        Ok (match get_model env (nth 0 parts EmptyString)
                                (nth 1 parts EmptyString) with
            | Some m => SourceClass m
            | None => SourceNone
            end)
      else
        SourceClass <$> get_class env s (__module__ attrs)
  end.

(** Lines 113-122: the [SourceNameI18N] naming convention. *)
Definition by_naming_convention (env : environment) (cls_name : string)
    (attrs : class_attrs) (source : source_state) : result source_state :=
  match source with
  | SourceNone =>
      if PyStr.endswith cls_name "I18N" then
        let base_name := PyStr.drop_last 4 cls_name in
        SourceClass <$> get_class env base_name (__module__ attrs)
      else Ok SourceNone
  | _ => Ok source
  end.

(** Lines 124-126. *)
Definition require_source (source : source_state) : result Model :=
  match source with
  | SourceClass m => Ok m
  | _ => Raise (ImproperlyConfigured "Please specify the source model")
  end.

Definition resolve_source (env : environment) (cls_name : string)
    (attrs : class_attrs) (source : option source_ref) : result Model :=
  s1 ← lookup_source env attrs source;
  s2 ← by_naming_convention env cls_name attrs s1;
  require_source s2.

Definition is_text_field (f : Field) : bool :=
  bool_decide (ftype f ∈ [TextField; CharField; SlugField]).

(** Lines 132-146: the names of the fields to translate. *)
Definition resolve_fields (source : Model) (declared : option (list string))
  : list string :=
  match default [] declared with
  | [] => name <$> filter (λ f, is_text_field f) (_meta_fields source)
  | fields => fields
  end.

(** Lines 152-159, one iteration: copy the field, demote its [unique]. *)
Definition copy_field (fields : list string)
    (st : gmap string class_attr * list string) (field : Field)
  : gmap string class_attr * list string :=
  let '(attrs, unique_fields) := st in
  if bool_decide (name field ∈ fields) then
    if _unique field then
      (<[name field := AField (mkField (name field) (ftype field) false)]> attrs,
       (unique_fields ++ [name field])%list)
    else
      (<[name field := AField field]> attrs, unique_fields)
  else st.

Definition copy_fields (source : Model) (fields : list string)
    (attrs : gmap string class_attr)
  : gmap string class_attr * list string :=
  foldl (copy_field fields) (attrs, []) (_meta_fields source).

Definition source_language : pyval :=
  PTuple [PStr "i18n_source"; PStr "i18n_language"].

(** Lines 162-171: [unique_together] gets the pair (source, language). *)
Definition add_source_language (declared : option pyval) : result pyval :=
  match declared with
  | Some ut =>
      first ← py_first ut;
      if is_str first then Ok (PTuple [ut; source_language])
      else py_iadd ut [PStr "i18n_source"; PStr "i18n_language"]
  | None => Ok (PTuple [source_language])
  end.

(** Lines 174-176: one constraint per demoted field. *)
Definition add_unique_fields (ut : pyval) (unique_fields : list string)
  : result pyval :=
  foldl (λ acc field,
           ut' ← acc; py_iadd ut' [PTuple [PStr "i18n_language"; PStr field]])
        (Ok ut) unique_fields.

Definition new (env : environment) (cls_name : string)
    (bases : list string) (attrs : class_attrs) : result class_attrs :=
  if negb (bool_decide ("I18nModel" ∈ bases)) then Ok attrs
  else
    let attr_meta := Meta attrs in
    let source := attr_meta ≫= source_model in
    (* del attrs['Meta'].source_model *)
    meta ← match attr_meta with
           | Some m => Ok m
           | None => Raise KeyError
           end;
    source ← resolve_source env cls_name attrs source;
    let fields := resolve_fields source (translation_fields meta) in
    let '(members', unique_fields) :=
      copy_fields source fields (members attrs) in
    ut ← add_source_language (unique_together meta);
    ut ← add_unique_fields ut unique_fields;
    Ok {| __module__ := __module__ attrs;
          Meta := Some {| source_model := None;
                          translation_fields := None;
                          unique_together := Some ut |};
          members := <["i18n_source" :=
                         AForeignKey source "translations" false]> members' |}.

End I18nBase.

(** ** Rows and the query primitives of the ORM

    A row is a dictionary from attribute names to values; a table is the
    list of its rows in insertion order.  The source instance is held under
    [i18n_source] by its primary key, and every attribute of an instance is
    a column of its row. *)

Inductive val :=
| VNone
| VInt (n : Z)
| VStr (s : string).

#[global] Instance val_eq_dec : EqDecision val.
Proof. solve_decision. Defined.

Abbreviation row := (gmap string val).

Module ORM.

(** [r] passes the keyword lookups [kw] of a [filter] call *)
Definition matches (kw : list (string * val)) (r : row) : Prop :=
  Forall (λ p, r !! p.1 = Some p.2) kw.

#[global] Instance matches_dec kw r : Decision (matches kw r).
Proof. unfold matches. apply _. Defined.

Definition filter_rows (kw : list (string * val)) (rows : list row)
  : list row :=
  filter (matches kw) rows.

(** [get] with keyword lookups [kw]: the only matching row *)
Definition get (kw : list (string * val)) (rows : list row) : result row :=
  match filter_rows kw rows with
  | [] => Raise DoesNotExist
  | [r] => Ok r
  | _ => Raise MultipleObjectsReturned
  end.

(** Two rows collide on a unique constraint when they agree on each of its
    columns with a value that is not NULL. *)
Definition agree (r r' : row) (column : string) : bool :=
  match r !! column, r' !! column with
  | Some v, Some v' => bool_decide (v = v') && negb (bool_decide (v = VNone))
  | _, _ => false
  end.

Definition collides (columns : list string) (r r' : row) : bool :=
  match columns with
  | [] => false
  | _ => forallb (agree r r') columns
  end.

Definition conflicts (constraints : list (list string)) (r : row)
    (others : list row) : bool :=
  existsb (λ r', existsb (λ columns, collides columns r r') constraints)
          others.

Definition pk_of (r : row) : option Z :=
  match r !! "id" with
  | Some (VInt n) => Some n
  | _ => None
  end.

Definition has_pk (n : Z) (r : row) : bool :=
  bool_decide (pk_of r = Some n).

(** the next value of the auto-increment key *)
Definition next_id (rows : list row) : Z :=
  1 + foldr (λ r acc, Z.max (default 0 (pk_of r)) acc) 0 rows.

(** INSERT, the primary key being unique as well *)
Definition insert_row (constraints : list (list string)) (rows : list row)
    (r : row) : result (row * list row) :=
  let r := match pk_of r with
           | Some _ => r
           | None => <["id" := VInt (next_id rows)]> r
           end in
  if conflicts (["id"] :: constraints) r rows then Raise IntegrityError
  else Ok (r, (rows ++ [r])%list).

(** [instance.save()]: UPDATE the row with the instance's key when there is
    one, INSERT otherwise. *)
Definition save (constraints : list (list string)) (rows : list row)
    (r : row) : result (row * list row) :=
  match pk_of r with
  | Some n =>
      if existsb (has_pk n) rows then
        if conflicts constraints r (filter (λ r', pk_of r' ≠ Some n) rows)
        then Raise IntegrityError
        else Ok (r, (λ r', if has_pk n r' then r else r') <$> rows)
      else insert_row constraints rows r
  | None => insert_row constraints rows r
  end.

(** The unique constraints of the table of a class: one per entry of
    [Meta.unique_together], over the names that the entry holds, and one
    single-column constraint per field still flagged unique. *)
Definition columns_of (entry : pyval) : list string :=
  omap (λ x, match x with PStr s => Some s | _ => None end)
       (py_items entry).

Definition unique_columns (attrs : gmap string class_attr)
  : list (list string) :=
  omap (λ '(k, a), match a with
                   | AField f => if _unique f then Some [k] else None
                   | _ => None
                   end) (map_to_list attrs).

Definition table_constraints (cls : class_attrs) : list (list string) :=
  (match Meta cls ≫= unique_together with
   | Some ut => columns_of <$> py_items ut
   | None => []
   end ++ unique_columns (members cls))%list.

(** The table of a model: the names of its fields and its unique
    constraints.  The primary key is the automatic field [id], and the
    foreign key [i18n_source] is the one related field. *)
Record table := mkTable {
  field_names : list string;
  unique_constraints : list (list string);
}.


(** The attribute behind a name given to [setattr]: the property [pk] is
    the primary key, and [i18n_source_id] is the column of the foreign
    key. *)
Definition attname (key : string) : string :=
  if decide (key = "pk") then "id"
  else if decide (key = "i18n_source_id") then "i18n_source"
  else key.

(** a model instance, here by its primary key *)
Definition is_instance (v : val) : bool :=
  match v with
  | VInt _ => true
  | _ => false
  end.

(** A keyword that the constructor of the model takes: the name of a field,
    [i18n_source_id] when [i18n_source] is not given, or the property
    [pk]. *)
Definition valid_keyword (t : table) (kw : row) (key : string) : Prop :=
  key ∈ field_names t
  ∨ key = "pk"
  ∨ (key = "i18n_source_id"
     ∧ "i18n_source" ∈ field_names t
     ∧ kw !! "i18n_source" = None).

#[global] Instance valid_keyword_dec t kw key :
  Decision (valid_keyword t kw key).
Proof. unfold valid_keyword. apply _. Defined.

(** the attributes of an instance that are fields: what [save] writes *)
Definition columns (t : table) (instance : row) : row :=
  filter (λ kv : string * val, kv.1 ∈ field_names t) instance.

(** The constructor [Model] with keyword arguments [kw]: the foreign key
    takes an instance ([ValueError] otherwise), a keyword that is not valid
    is a [TypeError], and [pk] is set last.  A field that is not given keeps
    its default, which the row leaves out. *)
Definition init (t : table) (kw : row) : result row :=
  if bool_decide ("i18n_source" ∈ field_names t)
     && match kw !! "i18n_source" with
        | Some v => negb (is_instance v)
        | None => false
        end
  then Raise ValueError
  else if bool_decide (map_Forall (λ key _, valid_keyword t kw key) kw) then
    let instance := columns t kw in
    let instance := match kw !! "i18n_source_id" with
                    | Some v => <["i18n_source" := v]> instance
                    | None => instance
                    end in
    Ok (match kw !! "pk" with
        | Some v => <["id" := v]> instance
        | None => instance
        end)
  else Raise TypeError.

(** [create] with keyword arguments [kw]: the instance is constructed, then
    inserted. *)
Definition create (t : table) (rows : list row) (kw : row)
  : result (row * list row) :=
  r ← init t kw; insert_row (unique_constraints t) rows r.

End ORM.

(** ** Settings *)

Record Settings := mkSettings {
  LANGUAGES : list (string * string);
  LANGUAGE_CODE : string;
}.

(** [language_code or get_language()]: a missing or empty argument gives the
    active language. *)
Definition or_active (language_code : option string) (active : string)
  : string :=
  match language_code with
  | Some (String _ _ as code) => code
  | _ => active
  end.

(** ** The manager [I18nManager] *)

Module I18nManager.

(** What the class namespace binds a name to: one of the four methods of
    the class body, or the closure made by [create_language_method]. *)
Inductive method :=
| Lang
| CurrentLanguage
| GetByLang
| GetAvailableLanguages
| LanguageMethod (language_code : string).

#[global] Instance method_eq_dec : EqDecision method.
Proof. solve_decision. Defined.

Inductive retval :=
| QuerySet (rows : list row)
| OneRow (r : row)
| Values (vs : list val).

Definition class_body : gmap string method :=
  <["lang" := Lang]>
    (<["current_language" := CurrentLanguage]>
       (<["get_by_lang" := GetByLang]>
          (<["get_available_languages" := GetAvailableLanguages]> ∅))).

Definition create_language_method (language_code : string) : method :=
  LanguageMethod language_code.

Definition accessor_name (language_code : string) : string :=
  PyStr.replace "-" "_" language_code.

(** [__new__]: one [setattr] on the class per configured language *)
Definition new (settings : Settings) (cls : gmap string method)
  : gmap string method :=
  foldl (λ cls language,
           let language_code := language.1 in
           <[accessor_name language_code :=
               create_language_method language_code]> cls)
        cls (LANGUAGES settings).

Definition by_language (language_code : string) (self : list row)
  : list row :=
  ORM.filter_rows [("i18n_language", VStr language_code)] self.

(** the body of a method other than [current_language], on the rows [self]
    of the manager *)
Definition apply (active : string) (self : list row) (m : method)
    (args : list string) : result retval :=
  match m, args with
  | Lang, [] => Ok (QuerySet (by_language (or_active None active) self))
  | Lang, [code] =>
      Ok (QuerySet (by_language (or_active (Some code) active) self))
  | GetByLang, [] =>
      OneRow <$> ORM.get [("i18n_language",
                              VStr (or_active None active))] self
  | GetByLang, [code] =>
      OneRow <$> ORM.get [("i18n_language",
                              VStr (or_active (Some code) active))] self
  | GetAvailableLanguages, [] =>
      Ok (Values ((λ t, default VNone (t !! "i18n_language")) <$> self))
  | LanguageMethod language_code, [] =>
      Ok (QuerySet (by_language language_code self))
  | _, _ => Raise TypeError
  end.

(** a call [self.attr(args)], the attribute looked up in the class namespace;
    [current_language] calls [self.lang()] through the same lookup. *)
Definition call (cls : gmap string method) (active : string)
    (self : list row) (attr : string) (args : list string)
  : result retval :=
  match cls !! attr with
  | None => Raise AttributeError
  | Some CurrentLanguage =>
      match args with
      | [] =>
          match cls !! "lang" with
          | None => Raise AttributeError
          | Some CurrentLanguage => Raise TypeError
          | Some m => apply active self m []
          end
      | _ => Raise TypeError
      end
  | Some m => apply active self m args
  end.

End I18nManager.

(** ** [I18nModel.translate] *)

Module I18nModel.

(** [setattr(translation, key, value)]: the descriptor of the foreign key
    takes an instance ([ValueError] otherwise); [pk] and [i18n_source_id]
    set the primary key and the column of the foreign key; any other name is
    set as it is, a name that is no field being a plain attribute of the
    instance. *)
Definition setattr (translation : row) (key : string) (value : val)
  : result row :=
  if decide (key = "i18n_source") then
    if ORM.is_instance value then Ok (<["i18n_source" := value]> translation)
    else Raise ValueError
  else Ok (<[ORM.attname key := value]> translation).

(** [for key, value in kwargs.items(): setattr(translation, key, value)];
    the keys of the dictionary are visited in the order of the map. *)
Definition setattrs (translation : row) (kwargs : gmap string val)
  : result row :=
  map_fold (λ key value acc, translation ← acc; setattr translation key value)
           (Ok translation) kwargs.

(** [translation.save()] after the loop: an attribute [save] set by the loop
    hides the method, and no value is callable; otherwise the fields of the
    instance are written, and the instance has the key it was stored
    under. *)
Definition save_instance (t : ORM.table) (rows : list row)
    (kwargs : gmap string val) (instance : row) : result (row * list row) :=
  if bool_decide (is_Some (kwargs !! "save")) then Raise TypeError
  else
    match ORM.save (ORM.unique_constraints t) rows (ORM.columns t instance) with
    | Ok (stored, rows') => Ok (stored ∪ instance, rows')
    | Raise e => Raise e
    end.

Definition pair_lookup (source : Z) (language : string)
  : list (string * val) :=
  [("i18n_source", VInt source); ("i18n_language", VStr language)].

(** [cls.objects.create] with [i18n_source], [i18n_language] and the
    unpacked [kwargs]: a keyword given twice is a [TypeError] of the
    call. *)
Definition create_translation (t : ORM.table)
    (rows : list row) (source : Z) (language : string)
    (kwargs : gmap string val) : result (row * list row) :=
  if bool_decide (is_Some (kwargs !! "i18n_source")
                  ∨ is_Some (kwargs !! "i18n_language"))
  then Raise TypeError
  else ORM.create t rows
         (<["i18n_source" := VInt source]>
            (<["i18n_language" := VStr language]> kwargs)).

(** The class method [translate] of a class whose table is [t], on the rows
    [rows] of the table; it returns the instance and the rows. *)
Definition translate (t : ORM.table) (rows : list row)
    (source : Z) (language : string) (kwargs : gmap string val)
  : result (row * list row) :=
  if bool_decide (kwargs = ∅) then
    r ← ORM.get (pair_lookup source language) rows; Ok (r, rows)
  else
    let attempt :=
      translation ← ORM.get (pair_lookup source language) rows;
      instance ← setattrs translation kwargs;
      save_instance t rows kwargs instance in
    match attempt with
    | Raise DoesNotExist =>
        create_translation t rows source language kwargs
    | outcome => outcome
    end.

End I18nModel.

(** ** The template tag [translate] *)

Module TemplateTags.

(** What a template passes as [obj]: an instance of a source model, which
    has the reverse relation [translations], or anything else. *)
Inductive template_obj :=
| SourceInstance (pk : Z)
| OtherObject (v : val).

Inductive tag_value :=
| Obj (o : template_obj)
| Value (v : I18nManager.retval).

(** [obj.translations]: the related manager, on the rows of the source *)
Definition translations (rows : list row) (obj : template_obj)
  : result (list row) :=
  match obj with
  | SourceInstance pk => Ok (ORM.filter_rows [("i18n_source", VInt pk)] rows)
  | OtherObject _ => Raise AttributeError
  end.

Definition translate (settings : Settings) (cls : gmap string I18nManager.method)
    (active : string) (rows : list row)
    (obj : template_obj) (language : option string) : tag_value :=
  let language := or_active language active in
  if String.eqb language (LANGUAGE_CODE settings) then Obj obj
  else
    let attempt :=
      related ← translations rows obj;
      I18nManager.call cls active related "get_by_lang" [language] in
    match attempt with
    | Ok v => Value v
    | Raise _ => Obj obj
    end.

End TemplateTags.

(** ** The choices of the field [I18nModel.i18n_language] *)

(** [[l for l in settings.LANGUAGES if l[0] != settings.LANGUAGE_CODE]] *)
Definition i18n_language_choices (settings : Settings)
  : list (string * string) :=
  filter (λ l : string * string, l.1 ≠ LANGUAGE_CODE settings)
         (LANGUAGES settings).

(** ** The admin inline [I18nInlineMixin] and its form set *)

Module Admin.

(** The [obj] of the admin views: [None], an instance that has no primary
    key yet, or a saved instance of the source model. *)
Inductive admin_obj :=
| NoObject
| Unsaved
| Saved (pk : Z).

(** [not obj or not obj.pk]: the key 0 is falsy as well. *)
Definition is_new (obj : admin_obj) : bool :=
  match obj with
  | NoObject => true
  | Unsaved => true
  | Saved pk => bool_decide (pk = 0)
  end.

(** [len(v)] of what a manager method returned *)
Definition py_len (v : I18nManager.retval) : result Z :=
  match v with
  | I18nManager.QuerySet rows => Ok (Z.of_nat (length rows))
  | I18nManager.Values vs => Ok (Z.of_nat (length vs))
  | I18nManager.OneRow _ => Raise TypeError
  end.

(** [code in v]: a string is found among values, is equal to no row of a
    query set, and a model instance is not iterable. *)
Definition py_in (code : string) (v : I18nManager.retval) : result bool :=
  match v with
  | I18nManager.Values vs => Ok (bool_decide (VStr code ∈ vs))
  | I18nManager.QuerySet _ => Ok false
  | I18nManager.OneRow _ => Raise TypeError
  end.

(** a list comprehension [[x for x in l if p(x)]] whose condition may
    raise *)
Fixpoint comprehension {A} (p : A → result bool) (l : list A)
  : result (list A) :=
  match l with
  | [] => Ok []
  | x :: rest =>
      keep ← p x;
      kept ← comprehension p rest;
      Ok (if (keep : bool) then x :: kept else kept)
  end.

(** [obj.translations]: the manager on the rows of the source *)
Definition translations (rows : list row) (pk : Z) : list row :=
  ORM.filter_rows [("i18n_source", VInt pk)] rows.

Definition get_existing_translation (cls : gmap string I18nManager.method)
    (active : string) (rows : list row) (obj : admin_obj)
  : result I18nManager.retval :=
  match obj with
  | Saved pk =>
      if is_new obj then Ok (I18nManager.Values [])
      else I18nManager.call cls active (translations rows pk)
             "get_available_languages" []
  | _ => Ok (I18nManager.Values [])
  end.

Definition get_untranslated_languages (settings : Settings)
    (cls : gmap string I18nManager.method) (active : string)
    (rows : list row) (obj : admin_obj) : result (list string) :=
  match obj with
  | Saved pk =>
      if is_new obj then
        Ok ((filter (λ lang : string * string, lang.1 ≠ LANGUAGE_CODE settings)
                    (LANGUAGES settings)).*1)
      else
        translated ← I18nManager.call cls active (translations rows pk)
                       "get_available_languages" [];
        kept ← comprehension
                 (λ lang : string * string,
                    found ← py_in lang.1 translated;
                    Ok (negb found
                        && bool_decide (lang.1 ≠ LANGUAGE_CODE settings)))
                 (LANGUAGES settings);
        Ok (kept.*1)
  | _ =>
      Ok ((filter (λ lang : string * string, lang.1 ≠ LANGUAGE_CODE settings)
                  (LANGUAGES settings)).*1)
  end.

(** the class attribute [max_num] *)
Definition max_num (settings : Settings) : Z :=
  Z.of_nat (length (LANGUAGES settings)) - 1.

Definition get_extra (settings : Settings)
    (cls : gmap string I18nManager.method) (active : string)
    (rows : list row) (obj : admin_obj) : result Z :=
  existing_translations ← get_existing_translation cls active rows obj;
  n ← py_len existing_translations;
  Ok (Z.of_nat (length (LANGUAGES settings)) - 1 - n).

(** [kwargs['initial']] of the form set made by [i18n_formset_factory] *)
Definition i18n_formset_initial (languages : list string) : list row :=
  (λ l, {["i18n_language" := VStr l]}) <$> languages.

(** [get_formset]: the initial data of the ad-hoc form set and the [extra]
    passed on to the inherited [get_formset] *)
Definition get_formset (settings : Settings)
    (cls : gmap string I18nManager.method) (active : string)
    (rows : list row) (obj : admin_obj) : result (list row * Z) :=
  untranslated ← get_untranslated_languages settings cls active rows obj;
  extra ← get_extra settings cls active rows obj;
  Ok (i18n_formset_initial untranslated, extra).

End Admin.

(** ** Notions used in the statements *)

(** a tuple or a list *)
Definition is_seq (v : pyval) : Prop :=
  match v with
  | PStr _ => False
  | _ => True
  end.

(** the constraint (language, field) *)
Definition language_with (field : string) : pyval :=
  PTuple [PStr "i18n_language"; PStr field].

(** No two rows of the table collide on a constraint. *)
Definition respects (constraints : list (list string)) (rows : list row)
  : Prop :=
  ∀ i j r r', i ≠ j → rows !! i = Some r → rows !! j = Some r' →
    ∀ columns, columns ∈ constraints → ORM.collides columns r r' = false.

(** The invariant of a table: every row has a primary key, and the rows
    respect the primary key and the unique constraints. *)
Definition table_ok (constraints : list (list string)) (rows : list row)
  : Prop :=
  Forall (λ r, is_Some (ORM.pk_of r)) rows
  ∧ respects (["id"] :: constraints) rows.

(** The table of a translation model: [id], [i18n_source] and
    [i18n_language] are fields, and no field has the name of the property
    [pk] or of the column [i18n_source_id]. *)
Definition translation_table (t : ORM.table) : Prop :=
  "id" ∈ ORM.field_names t
  ∧ "i18n_source" ∈ ORM.field_names t
  ∧ "i18n_language" ∈ ORM.field_names t
  ∧ ("pk" ∉ ORM.field_names t)
  ∧ ("i18n_source_id" ∉ ORM.field_names t).

(** Every column of every row is a field of the table. *)
Definition columns_ok (t : ORM.table) (rows : list row) : Prop :=
  Forall (map_Forall (λ key _, key ∈ ORM.field_names t)) rows.

(** The rows of the table of a translation model, as the database keeps
    them. *)
Definition well_kept (t : ORM.table) (rows : list row) : Prop :=
  translation_table t
  ∧ table_ok (ORM.unique_constraints t) rows
  ∧ columns_ok t rows.

(** the names that stand for the primary key, for the pair (source,
    language), or for the method [save] *)
Definition reserved_names : list string :=
  ["id"; "pk"; "i18n_source"; "i18n_source_id"; "i18n_language"; "save"].

(** Keyword arguments that name fields of the translated content only: each
    key is a field of the table and not a reserved name. *)
Definition content_only (t : ORM.table) (kwargs : gmap string val) : Prop :=
  map_Forall (λ key _, key ∈ ORM.field_names t ∧ (key ∉ reserved_names))
             kwargs.



(** the columns of the constraint (source, language) *)
Definition pair_columns : list string := ["i18n_source"; "i18n_language"].

(** A language set whose codes are not empty and whose accessor names are
    distinct from each other and from the method [lang]. *)
Definition language_set_ok (settings : Settings) : Prop :=
  ∀ code, code ∈ (LANGUAGES settings).*1 →
    code ≠ ""
    ∧ I18nManager.accessor_name code ≠ "lang"
    ∧ ∀ code', code' ∈ (LANGUAGES settings).*1 →
        I18nManager.accessor_name code' = I18nManager.accessor_name code →
        code' = code.

(** ** Sample declarations used by the examples below *)

Module Fixtures.

(** [class Post(models.Model)] of module [blog.models] *)
Definition Post : Model :=
  mkModel "Post"
    [mkField "id" AutoField false;
     mkField "title" CharField false;
     mkField "slug" SlugField true;
     mkField "body" TextField false;
     mkField "views" IntegerField false].

Definition blog : environment :=
  mkEnv ∅ {["blog.models" := {["Post" := Post]}]}.

(** the body of [class ...(I18nModel)] with an inner [Meta] *)
Definition body (meta : meta_options) : class_attrs :=
  mkAttrs "blog.models" (Some meta) ∅.

Definition title_slug : pyval := PTuple [PStr "title"; PStr "slug"].

Definition languages : list (string * string) :=
  [("en", "English"); ("de", "German"); ("pt-br", "Portuguese")].

Definition site : Settings := mkSettings languages "en".

(** a translation row *)
Definition translation (pk source : Z) (language title : string) : row :=
  <["id" := VInt pk]>
    (<["i18n_source" := VInt source]>
       (<["i18n_language" := VStr language]>
          (<["title" := VStr title]> ∅))).

(** the class that the metaclass makes of [class PostI18N(I18nModel)] with
    an empty [Meta] *)
Definition PostI18N : class_attrs :=
  mkAttrs "blog.models"
    (Some (mkMeta None None
             (Some (PTuple [PTuple [PStr "i18n_source"; PStr "i18n_language"];
                            PTuple [PStr "i18n_language"; PStr "slug"]]))))
    (<["title" := AField (mkField "title" CharField false)]>
       (<["slug" := AField (mkField "slug" SlugField false)]>
          (<["body" := AField (mkField "body" TextField false)]>
             (<["i18n_source" := AForeignKey Post "translations" false]> ∅)))).

Definition hallo : row := translation 1 7 "de" "Hallo".

Definition guten_tag : row := <["title" := VStr "Guten Tag"]> hallo.

End Fixtures.

(** ** Further sample declarations *)

Module Samples.

(** a site whose app registry knows [blog.Post] *)
Definition site_registry : environment :=
  mkEnv {[("blog", "Post") := Fixtures.Post]}
        {["blog.models" := {["Post" := Fixtures.Post]}]}.

(** a source with two unique fields, [code] declared before [slug] *)
Definition Page : Model :=
  mkModel "Page"
    [mkField "id" AutoField false;
     mkField "code" CharField true;
     mkField "slug" SlugField true;
     mkField "email" EmailField false].

(** the class made of a translation of [Page] that lists [slug] before
    [code] *)
Definition PageTranslation : class_attrs :=
  mkAttrs "blog.models"
    (Some (mkMeta None None
             (Some (PTuple [PTuple [PStr "i18n_source"; PStr "i18n_language"];
                            PTuple [PStr "i18n_language"; PStr "code"];
                            PTuple [PStr "i18n_language"; PStr "slug"]]))))
    (<["code" := AField (mkField "code" CharField false)]>
       (<["slug" := AField (mkField "slug" SlugField false)]>
          (<["i18n_source" := AForeignKey Page "translations" false]> ∅))).

(** a class body that declares a unique field [key] of its own *)
Definition body_with_key (meta : meta_options) : class_attrs :=
  mkAttrs "blog.models" (Some meta)
    {["key" := AField (mkField "key" CharField true)]}.

Definition PostI18N_with_key : class_attrs :=
  mkAttrs "blog.models" (Meta Fixtures.PostI18N)
    (<["key" := AField (mkField "key" CharField true)]>
       (members Fixtures.PostI18N)).


(** the table of the translations of [Post], with the constraint (source,
    language) *)
Definition post_table : ORM.table :=
  ORM.mkTable ["id"; "i18n_source"; "i18n_language"; "title"; "slug"; "body"]
              [["i18n_source"; "i18n_language"]].

Definition two_languages : Settings :=
  mkSettings [("en", "English"); ("de", "German")] "en".

End Samples.

(** * Properties *)

(** ** Python strings and values *)

Lemma py_iadd_seq v t :
  is_seq v →
  ∃ v', py_iadd v t = Ok v' ∧ is_seq v' ∧ py_items v' = (py_items v ++ t)%list.
Proof.
  destruct v as [s|items|items]; simpl; intros Hseq;
    [contradiction | eauto | eauto].
Qed.

(** ** The uniqueness constraints written by the metaclass *)

Section unique_together.

Import I18nBase.

Lemma add_source_language_seq declared ut :
  add_source_language declared = Ok ut → is_seq ut.
Proof.
  destruct declared as [d|]; simpl; [|by intros [= <-]].
  destruct (py_first d) as [first|e] eqn:Hfirst; simpl; [|done].
  destruct (is_str first); [by intros [= <-]|].
  destruct d; simpl; [|by intros [= <-]..].
  by destruct s.
Qed.

(** No declaration: the pair alone. *)
Lemma add_source_language_undeclared :
  add_source_language None = Ok (PTuple [source_language]).
Proof. reflexivity. Qed.

(** A single tuple of names is wrapped and the pair follows it. *)
Lemma add_source_language_single (ut first : pyval) :
  py_first ut = Ok first → is_str first = true →
  add_source_language (Some ut) = Ok (PTuple [ut; source_language]).
Proof. intros Hfirst Hstr. simpl. by rewrite Hfirst; simpl; rewrite Hstr. Qed.

(** A tuple of tuples is extended by the two names, not by the pair. *)
Lemma add_source_language_nested (c : pyval) (cs : list pyval) :
  is_str c = false →
  add_source_language (Some (PTuple (c :: cs)))
  = Ok (PTuple (c :: cs ++ [PStr "i18n_source"; PStr "i18n_language"])).
Proof. intros Hc. simpl. by rewrite Hc. Qed.

Lemma add_unique_fields_items (unique_fields : list string) (ut : pyval) :
  is_seq ut →
  ∃ ut', add_unique_fields ut unique_fields = Ok ut'
         ∧ is_seq ut'
         ∧ py_items ut'
           = (py_items ut ++ (language_with <$> unique_fields))%list.
Proof.
  unfold add_unique_fields.
  induction unique_fields as [|field rest IH] using rev_ind; intros Hseq.
  - exists ut. simpl. by rewrite app_nil_r.
  - destruct (IH Hseq) as (ut1 & Hfold & Hseq1 & Hitems1).
    rewrite foldl_snoc, Hfold. simpl.
    destruct (py_iadd_seq ut1 [language_with field] Hseq1)
      as (ut2 & Hadd & Hseq2 & Hitems2).
    exists ut2. split; [exact Hadd|]. split; [exact Hseq2|].
    by rewrite Hitems2, Hitems1, fmap_app, <-app_assoc.
Qed.

End unique_together.

(** ** Copying the fields of the source *)

Section copy_fields.

Import I18nBase.

Variable fields : list string.

(** The demoted fields are the unique fields of the source that are
    translated, in the order of the source. *)
Lemma copy_fields_unique_fields (l : list Field) attrs acc :
  (foldl (copy_field fields) (attrs, acc) l).2
  = (acc ++ (name <$> filter (λ f, name f ∈ fields ∧ _unique f = true) l))%list.
Proof.
  revert attrs acc. induction l as [|f l IH]; intros attrs acc; simpl.
  - by rewrite app_nil_r.
  - rewrite filter_cons.
    case_bool_decide as Hin.
    + destruct (_unique f) eqn:Hu.
      * rewrite IH, decide_True by done. by rewrite <-app_assoc.
      * rewrite IH, decide_False; [done|]. intros [_ ?]; congruence.
    + rewrite IH, decide_False; [done|]. by intros [? _].
Qed.

(** A name that is not both listed and a field of the source keeps what
    the class body bound it to. *)
Lemma copy_fields_lookup_other (l : list Field) attrs acc (n : string) :
  ¬ (n ∈ fields ∧ n ∈ name <$> l) →
  (foldl (copy_field fields) (attrs, acc) l).1 !! n = attrs !! n.
Proof.
  revert attrs acc. induction l as [|f l IH]; intros attrs acc Hn; [done|].
  simpl.
  assert (¬ (n ∈ fields ∧ n ∈ name <$> l)) as Hn'.
  { intros [? ?]. apply Hn. split; [done|]. rewrite fmap_cons. by right. }
  case_bool_decide as Hin.
  - assert (name f ≠ n) as Hne.
    { intros <-. apply Hn. split; [done|]. rewrite fmap_cons. by left. }
    destruct (_unique f); rewrite IH by done; by rewrite lookup_insert_ne.
  - by rewrite IH.
Qed.

(** A listed name of a field of the source is bound to a copy of such a
    field, and the copy is not flagged unique. *)
Lemma copy_fields_lookup_copied (l : list Field) attrs acc (n : string) :
  n ∈ fields → n ∈ name <$> l →
  ∃ f, f ∈ l ∧ name f = n
       ∧ (foldl (copy_field fields) (attrs, acc) l).1 !! n
         = Some (AField (mkField n (ftype f) false)).
Proof.
  intros Hin. revert attrs acc.
  induction l as [|f l IH] using rev_ind; intros attrs acc Hl.
  - by apply elem_of_nil in Hl.
  - rewrite foldl_snoc.
    destruct (foldl (copy_field fields) (attrs, acc) l) as [attrs' acc'] eqn:Hfold.
    destruct (decide (name f = n)) as [<-|Hne].
    + exists f. split; [apply elem_of_app; right; by left|]. split; [done|].
      unfold copy_field. rewrite bool_decide_eq_true_2 by done.
      destruct f as [nm ty [|]]; simpl; by rewrite lookup_insert_eq.
    + rewrite fmap_app in Hl. apply elem_of_app in Hl as [Hl|Hl];
        [|apply list_elem_of_singleton in Hl; simpl in Hl; congruence].
      destruct (IH attrs acc Hl) as (g & Hg & Hname & Hlook).
      rewrite Hfold in Hlook. simpl in Hlook.
      exists g. split; [apply elem_of_app; by left|]. split; [done|].
      unfold copy_field. case_bool_decide; [|done].
      destruct (_unique f); simpl; by rewrite lookup_insert_ne.
Qed.

End copy_fields.

(** ** The class made by [I18nBase.new] *)

Section metaclass.

Import I18nBase.

Variable env : environment.
Variable cls_name : string.
Variable bases : list string.
Variable attrs : class_attrs.

Hypothesis Hbases : "I18nModel" ∈ bases.

(** What a successful [new] went through. *)
Lemma new_Ok_inv (cls' : class_attrs) :
  new env cls_name bases attrs = Ok cls' →
  ∃ meta source ut0 ut,
    Meta attrs = Some meta
    ∧ resolve_source env cls_name attrs (source_model meta) = Ok source
    ∧ add_source_language (unique_together meta) = Ok ut0
    ∧ add_unique_fields ut0
        (copy_fields source
           (resolve_fields source (translation_fields meta))
           (members attrs)).2 = Ok ut
    ∧ Meta cls' = Some (mkMeta None None (Some ut))
    ∧ members cls'
      = <["i18n_source" := AForeignKey source "translations" false]>
          (copy_fields source
             (resolve_fields source (translation_fields meta))
             (members attrs)).1.
Proof.
  unfold new. rewrite bool_decide_eq_true_2 by done. simpl.
  destruct (Meta attrs) as [meta|]; simpl; [|done].
  destruct (resolve_source _ _ _ _) as [source|e] eqn:Hsource; simpl; [|done].
  destruct (copy_fields _ _ _) as [members' unique_fields] eqn:Hcopy; simpl.
  destruct (add_source_language _) as [ut0|e] eqn:Hut0; simpl; [|done].
  destruct (add_unique_fields _ _) as [ut|e] eqn:Hut; simpl; [|done].
  intros [= <-]. exists meta, source, ut0, ut. rewrite Hcopy. by simpl.
Qed.

(** [new] fails only where the [Meta], the source or the declared
    [unique_together] make it fail: the list of translated fields plays no
    part. *)
Lemma new_Ok_intro (meta : meta_options) (source : Model) (ut0 : pyval) :
  Meta attrs = Some meta →
  resolve_source env cls_name attrs (source_model meta) = Ok source →
  add_source_language (unique_together meta) = Ok ut0 →
  ∃ cls', new env cls_name bases attrs = Ok cls'.
Proof.
  intros Hmeta Hsource Hut0. unfold new.
  rewrite bool_decide_eq_true_2 by done. simpl.
  rewrite Hmeta. simpl. rewrite Hsource. simpl.
  destruct (copy_fields _ _ _) as [members' unique_fields]; simpl.
  rewrite Hut0. simpl.
  destruct (add_unique_fields_items unique_fields ut0) as (ut & -> & _);
    [by eapply add_source_language_seq|].
  simpl. eauto.
Qed.

(** The entries of the final [unique_together]: those that
    [add_source_language] leaves, then one (language, field) per demoted
    field. *)
Lemma new_unique_together (cls' : class_attrs) meta source :
  new env cls_name bases attrs = Ok cls' →
  Meta attrs = Some meta →
  resolve_source env cls_name attrs (source_model meta) = Ok source →
  ∃ ut0 ut,
    add_source_language (unique_together meta) = Ok ut0
    ∧ Meta cls' ≫= unique_together = Some ut
    ∧ is_seq ut
    ∧ py_items ut
      = (py_items ut0
         ++ (language_with <$>
               (name <$> filter (λ f, name f ∈ resolve_fields source
                                                  (translation_fields meta)
                                      ∧ _unique f = true)
                                (_meta_fields source))))%list.
Proof.
  intros Hnew Hmeta Hsource.
  destruct (new_Ok_inv _ Hnew)
    as (meta' & source' & ut0 & ut & Hmeta' & Hsource' & Hut0 & Hut & HM & _).
  rewrite Hmeta in Hmeta'. injection Hmeta' as <-.
  rewrite Hsource in Hsource'. injection Hsource' as <-.
  exists ut0, ut. split; [done|]. rewrite HM. split; [done|].
  destruct (add_unique_fields_items
              (copy_fields source
                 (resolve_fields source (translation_fields meta))
                 (members attrs)).2 ut0)
    as (ut' & Hut' & Hseq & Hitems); [by eapply add_source_language_seq|].
  rewrite Hut in Hut'. injection Hut' as <-. split; [done|].
  rewrite Hitems. unfold copy_fields.
  by rewrite copy_fields_unique_fields.
Qed.

End metaclass.

(** ** Unique constraints of a table *)

Section constraints.

Import ORM.

Lemma agree_sym (r r' : row) column : agree r r' column = agree r' r column.
Proof.
  unfold agree. destruct (r !! column) as [v|], (r' !! column) as [v'|]; try done.
  destruct (decide (v = v')) as [->|Hne]; [done|].
  rewrite (bool_decide_eq_false_2 (v = v')) by done.
  by rewrite (bool_decide_eq_false_2 (v' = v)) by done.
Qed.

Lemma collides_sym columns (r r' : row) :
  collides columns r r' = collides columns r' r.
Proof.
  unfold collides. destruct columns as [|c cs]; [done|].
  generalize (c :: cs). intros l. induction l as [|x l IH]; [done|].
  simpl. by rewrite agree_sym, IH.
Qed.

Lemma agree_Some (r r' : row) column :
  agree r r' column = true
  ↔ ∃ v, r !! column = Some v ∧ r' !! column = Some v ∧ v ≠ VNone.
Proof.
  unfold agree. split.
  - destruct (r !! column) as [v|], (r' !! column) as [v'|]; try done.
    intros [Heq Hnn]%andb_prop. apply bool_decide_eq_true in Heq as <-.
    exists v. split; [done|]. split; [done|].
    apply negb_true_iff, bool_decide_eq_false in Hnn. done.
  - intros (v & -> & -> & Hv).
    rewrite bool_decide_eq_true_2 by done.
    by rewrite bool_decide_eq_false_2.
Qed.

(** Same primary key: the rows collide on it. *)
Lemma collides_pk (r r' : row) n :
  pk_of r = Some n → pk_of r' = Some n → collides ["id"] r r' = true.
Proof.
  unfold pk_of, collides. simpl. intros Hr Hr'.
  rewrite andb_true_r. apply agree_Some. exists (VInt n).
  destruct (r !! "id") as [[]|]; try done.
  destruct (r' !! "id") as [[]|]; try done.
  by simplify_eq.
Qed.

Lemma collides_id_pk (r r' : row) n :
  pk_of r = Some n → collides ["id"] r r' = true → pk_of r' = Some n.
Proof.
  unfold collides. simpl. rewrite andb_true_r.
  intros Hr (v & Hv & Hv' & _)%agree_Some.
  unfold pk_of in *. rewrite Hv in Hr. by rewrite Hv'.
Qed.

Lemma conflicts_true constraints (r r' : row) others columns :
  columns ∈ constraints → r' ∈ others → collides columns r r' = true →
  conflicts constraints r others = true.
Proof.
  intros Hc Hr' Hcol. unfold conflicts. apply existsb_exists.
  exists r'. split; [by apply list_elem_of_In|].
  apply existsb_exists. exists columns. split; [by apply list_elem_of_In|done].
Qed.

Lemma conflicts_false constraints (r r' : row) others columns :
  conflicts constraints r others = false →
  columns ∈ constraints → r' ∈ others → collides columns r r' = false.
Proof.
  intros Hno Hc Hr'. apply not_true_iff_false. intros Hcol.
  by rewrite (conflicts_true constraints r r' others columns) in Hno.
Qed.

(** In a table that respects the primary key, a key names one row. *)
Lemma pk_unique constraints (rows : list row) i j r r' n :
  respects (["id"] :: constraints) rows →
  rows !! i = Some r → rows !! j = Some r' →
  pk_of r = Some n → pk_of r' = Some n → i = j.
Proof.
  intros Hres Hi Hj Hr Hr'. destruct (decide (i = j)) as [|Hne]; [done|].
  specialize (Hres i j r r' Hne Hi Hj ["id"]).
  rewrite (collides_pk r r' n) in Hres by done.
  discriminate Hres. by left.
Qed.

End constraints.

(** ** [create] and [save] keep the invariant of the table *)

Section writes.

Import ORM.

Variable constraints : list (list string).


Lemma insert_row_Ok (rows : list row) (r r1 : row) rows1 :
  insert_row constraints rows r = Ok (r1, rows1) →
  rows1 = (rows ++ [r1])%list
  ∧ conflicts (["id"] :: constraints) r1 rows = false
  ∧ is_Some (pk_of r1)
  ∧ r1 = match pk_of r with
         | Some _ => r
         | None => <["id" := VInt (next_id rows)]> r
         end.
Proof.
  unfold insert_row.
  destruct (conflicts _ _ rows) eqn:Hconf; [done|].
  intros [= <- <-]. split; [done|]. split; [done|]. split; [|done].
  destruct (pk_of r) as [n|] eqn:Hpk; [by rewrite Hpk|].
  unfold pk_of. rewrite lookup_insert_eq. eauto.
Qed.

Lemma insert_row_table_ok (rows : list row) (r r1 : row) rows1 :
  table_ok constraints rows →
  insert_row constraints rows r = Ok (r1, rows1) →
  table_ok constraints rows1.
Proof.
  intros [Hpks Hres] (-> & Hconf & Hpk1 & _)%insert_row_Ok. split.
  - apply Forall_app. split; [done|]. by apply Forall_singleton.
  - intros i j x y Hne Hi Hj columns Hcol.
    apply lookup_snoc_Some in Hi as [[Hi Hx]|[Hi ->]];
      apply lookup_snoc_Some in Hj as [[Hj Hy]|[Hj ->]].
    + by eapply Hres.
    + rewrite collides_sym. eapply conflicts_false; [done..|].
      by eapply list_elem_of_lookup_2.
    + eapply conflicts_false; [done..|]. by eapply list_elem_of_lookup_2.
    + congruence.
Qed.

(** The two ways of [save]: UPDATE of the row that has the key of the
    instance, INSERT when there is none. *)
Lemma save_Ok (rows : list row) (r r1 : row) rows1 :
  save constraints rows r = Ok (r1, rows1) →
  (∃ n, pk_of r = Some n
        ∧ existsb (has_pk n) rows = true
        ∧ conflicts constraints r (filter (λ r', pk_of r' ≠ Some n) rows)
          = false
        ∧ r1 = r
        ∧ rows1 = (λ r', if has_pk n r' then r else r') <$> rows)
  ∨ ((∀ n, pk_of r = Some n → existsb (has_pk n) rows = false)
     ∧ insert_row constraints rows r = Ok (r1, rows1)).
Proof.
  unfold save. destruct (pk_of r) as [n|] eqn:Hpk.
  - destruct (existsb (has_pk n) rows) eqn:Hex.
    + destruct (conflicts _ _ _) eqn:Hconf; [done|].
      intros [= <- <-]. left. exists n. done.
    + intros Hins. right. split; [|done]. by intros ? [= <-].
  - intros Hins. right. split; [|done]. done.
Qed.

Lemma save_table_ok (rows : list row) (r r1 : row) rows1 :
  table_ok constraints rows →
  save constraints rows r = Ok (r1, rows1) →
  table_ok constraints rows1.
Proof.
  intros Hok [(n & Hpk & Hex & Hconf & -> & ->)|[_ Hins]]%save_Ok;
    [|by eapply insert_row_table_ok].
  destruct Hok as [Hpks Hres]. split.
  - apply Forall_fmap. eapply Forall_impl; [exact Hpks|].
    intros x Hx. simpl. destruct (has_pk n x); [by rewrite Hpk|done].
  - intros i j x y Hne Hi Hj columns Hcol.
    rewrite list_lookup_fmap in Hi, Hj.
    destruct (rows !! i) as [x0|] eqn:Hi0; [|done].
    destruct (rows !! j) as [y0|] eqn:Hj0; [|done].
    simpl in Hi, Hj. injection Hi as <-. injection Hj as <-.
    unfold has_pk.
    destruct (decide (pk_of x0 = Some n)) as [Hx|Hx];
      destruct (decide (pk_of y0 = Some n)) as [Hy|Hy].
    + destruct Hne. by eapply pk_unique.
    + rewrite bool_decide_eq_true_2, bool_decide_eq_false_2 by done.
      apply elem_of_cons in Hcol as [->|Hcol].
      * apply not_true_iff_false. intros Hc.
        apply Hy. exact (collides_id_pk r y0 n Hpk Hc).
      * eapply conflicts_false; [done..|].
        apply list_elem_of_filter. split; [done|].
        by eapply list_elem_of_lookup_2.
    + rewrite bool_decide_eq_false_2, bool_decide_eq_true_2 by done.
      rewrite collides_sym.
      apply elem_of_cons in Hcol as [->|Hcol].
      * apply not_true_iff_false. intros Hc.
        apply Hx. exact (collides_id_pk r x0 n Hpk Hc).
      * eapply conflicts_false; [done..|].
        apply list_elem_of_filter. split; [done|].
        by eapply list_elem_of_lookup_2.
    + rewrite !bool_decide_eq_false_2 by done. by eapply Hres.
Qed.

End writes.

(** ** Lookups by (source, language) *)

Section lookups.

Import ORM I18nModel.

Lemma matches_pair (r : row) source language :
  matches (pair_lookup source language) r
  ↔ r !! "i18n_source" = Some (VInt source)
    ∧ r !! "i18n_language" = Some (VStr language).
Proof.
  unfold matches, pair_lookup. rewrite !Forall_cons. simpl.
  split; [by intros (? & ? & _)|by intros [? ?]].
Qed.

Lemma collides_pair (r r' : row) source language :
  matches (pair_lookup source language) r →
  (collides pair_columns r r' = true
   ↔ matches (pair_lookup source language) r').
Proof.
  intros [Hs Hl]%matches_pair. unfold collides, pair_columns. simpl.
  rewrite andb_true_r, andb_true_iff, !agree_Some, matches_pair.
  split.
  - intros [(v & Hv & Hv' & _) (w & Hw & Hw' & _)]. split; congruence.
  - intros [Hs' Hl']. split; eexists; eauto.
Qed.

Lemma get_Ok kw (rows : list row) (r : row) :
  get kw rows = Ok r ↔ filter_rows kw rows = [r].
Proof.
  unfold get. destruct (filter_rows kw rows) as [|x [|y l]];
    split; intros H; by simplify_eq.
Qed.

Lemma get_DoesNotExist kw (rows : list row) :
  get kw rows = Raise DoesNotExist ↔ filter_rows kw rows = [].
Proof.
  unfold get. destruct (filter_rows kw rows) as [|x [|y l]];
    split; intros H; by simplify_eq.
Qed.

(** Two matching rows sit at two places of the table. *)
Lemma filter_two {A} (P : A → Prop) `{!∀ x, Decision (P x)}
    (l : list A) x y k :
  filter P l = x :: y :: k →
  ∃ i j, i ≠ j ∧ l !! i = Some x ∧ l !! j = Some y.
Proof.
  induction l as [|a l IH]; [done|]. rewrite filter_cons.
  destruct (decide (P a)) as [Ha|Ha].
  - intros [= -> Hrest].
    assert (y ∈ l) as [j Hj]%list_elem_of_lookup_1.
    { eapply (proj1 (list_elem_of_filter P l y)).
      rewrite Hrest. by left. }
    exists 0%nat, (S j). done.
  - intros (i & j & Hne & Hi & Hj)%IH. exists (S i), (S j).
    split; [congruence|done].
Qed.

(** Under the constraint (source, language) a pair names at most one
    row. *)
Lemma pair_unique constraints (rows : list row) source language :
  pair_columns ∈ constraints → respects constraints rows →
  (length (filter_rows (pair_lookup source language) rows) ≤ 1)%nat.
Proof.
  intros Hin Hres.
  destruct (filter_rows _ rows) as [|x [|y k]] eqn:Hf; simpl; [lia..|].
  destruct (filter_two _ _ _ _ _ Hf) as (i & j & Hne & Hi & Hj).
  assert (x ∈ filter_rows (pair_lookup source language) rows) as Hx
    by (rewrite Hf; by left).
  assert (y ∈ filter_rows (pair_lookup source language) rows) as Hy
    by (rewrite Hf; right; by left).
  apply list_elem_of_filter in Hx as [Hx _].
  apply list_elem_of_filter in Hy as [Hy _].
  specialize (Hres i j x y Hne Hi Hj pair_columns Hin).
  apply (collides_pair x y) in Hy; [|done]. congruence.
Qed.

(** A row that is alone in matching stays alone when it is replaced by a
    matching row. *)
Lemma filter_replace {A} (P : A → Prop) `{!∀ x, Decision (P x)}
    (l : list A) i x x' :
  l !! i = Some x → filter P l = [x] → P x' →
  filter P (<[i := x']> l) = [x'].
Proof.
  intros Hi Hf Hx'.
  assert (P x) as Hx.
  { eapply (proj1 (list_elem_of_filter P l x)). rewrite Hf. by left. }
  rewrite <-(take_drop_middle l i x Hi) in Hf.
  rewrite filter_app, filter_cons, decide_True in Hf by done.
  assert (i < length l)%nat as Hlt by (by eapply lookup_lt_Some).
  rewrite insert_take_drop by done.
  rewrite filter_app, filter_cons, decide_True by done.
  destruct (filter P (take i l)) as [|a k]; simpl in *.
  - injection Hf as ->. done.
  - injection Hf as _ Hf. by destruct k.
Qed.

End lookups.

(** ** The upsert [I18nModel.translate] *)

Section translate.

Import ORM I18nModel.

Variable t : table.

Lemma save_Raise constraints (rows : list row) (r : row) e :
  save constraints rows r = Raise e → e = IntegrityError.
Proof.
  unfold save, insert_row.
  repeat (case_match; try done); by intros [= <-].
Qed.


(** *** Names and columns *)

Lemma attname_content (key : string) :
  key ∉ reserved_names → attname key = key ∧ key ≠ "i18n_source".
Proof.
  unfold reserved_names. rewrite !not_elem_of_cons.
  intros (Hid & Hpk & Hs & Hsid & Hl & Hsave & _).
  unfold attname. by rewrite !decide_False by done.
Qed.

Lemma content_only_None (kwargs : gmap string val) (key : string) :
  content_only t kwargs → key ∈ reserved_names → kwargs !! key = None.
Proof.
  intros Hcontent Hkey. destruct (kwargs !! key) as [v|] eqn:Hlook; [|done].
  by destruct (Hcontent key v Hlook) as [_ Hno].
Qed.

Lemma content_only_lookup (kwargs : gmap string val) key v :
  content_only t kwargs → kwargs !! key = Some v →
  key ∈ field_names t
  ∧ key ≠ "id" ∧ key ≠ "i18n_source" ∧ key ≠ "i18n_language".
Proof.
  intros Hcontent Hkey. destruct (Hcontent key v Hkey) as [Hfield Hno].
  unfold reserved_names in Hno. rewrite !not_elem_of_cons in Hno.
  by destruct Hno as (Hid & Hpk & Hs & Hsid & Hl & Hsave & _).
Qed.

Lemma columns_id (instance : row) :
  map_Forall (λ key _, key ∈ field_names t) instance →
  columns t instance = instance.
Proof.
  intros Hall. unfold columns. apply map_filter_id.
  intros key value Hkey. by apply (Hall key value).
Qed.

Lemma columns_fields (instance : row) :
  map_Forall (λ key _, key ∈ field_names t) (columns t instance).
Proof. by intros key value [_ Hkey]%map_lookup_filter_Some. Qed.

Lemma columns_lookup (instance : row) (a : string) :
  a ∈ field_names t → columns t instance !! a = instance !! a.
Proof.
  intros Ha. unfold columns. destruct (instance !! a) as [v|] eqn:Hlook.
  - by apply map_lookup_filter_Some.
  - apply map_lookup_filter_None. by left.
Qed.

Lemma columns_union (instance : row) :
  columns t instance ∪ instance = instance.
Proof. apply map_subseteq_union, map_filter_subseteq. Qed.

Lemma union_fields (kwargs r : row) :
  map_Forall (λ key _, key ∈ field_names t) kwargs →
  map_Forall (λ key _, key ∈ field_names t) r →
  map_Forall (λ key _, key ∈ field_names t) (kwargs ∪ r).
Proof.
  intros Hk Hr key value [Hkey|[_ Hkey]]%lookup_union_Some_raw.
  - by apply (Hk key value).
  - by apply (Hr key value).
Qed.

Lemma content_only_fields (kwargs : gmap string val) :
  content_only t kwargs → map_Forall (λ key _, key ∈ field_names t) kwargs.
Proof. intros Hcontent key value Hkey. by apply (Hcontent key value). Qed.

(** *** The loop of [setattr] *)

(** With updates of the content, the loop leaves the keyword arguments over
    the previous attributes. *)
Lemma setattrs_content (translation : row) (kwargs : gmap string val) :
  content_only t kwargs →
  setattrs translation kwargs = Ok (kwargs ∪ translation).
Proof.
  unfold setattrs, content_only.
  apply (map_fold_weak_ind
           (λ acc m,
              map_Forall (λ key _, key ∈ field_names t
                                   ∧ (key ∉ reserved_names)) m →
              acc = Ok (m ∪ translation))).
  - intros _. by rewrite (left_id_L ∅ (∪)).
  - intros key value m acc Hnone IH Hall.
    apply map_Forall_insert in Hall as [[_ Hkey] Hall]; [|done].
    rewrite (IH Hall). simpl.
    destruct (attname_content key Hkey) as [Hatt Hne].
    unfold setattr. rewrite decide_False by done.
    by rewrite Hatt, insert_union_l.
Qed.



Lemma setattr_Raise (translation : row) key value e :
  setattr translation key value = Raise e → e = ValueError.
Proof.
  unfold setattr. case_decide; [|done].
  destruct (is_instance value); [done|]. by intros [= <-].
Qed.



Lemma setattrs_Raise (translation : row) (kwargs : gmap string val) e :
  setattrs translation kwargs = Raise e → e = ValueError.
Proof.
  unfold setattrs. revert e.
  apply (map_fold_weak_ind (λ acc m, ∀ e, acc = Raise e → e = ValueError)).
  - done.
  - intros key value m acc Hnone IH e Hacc.
    destruct acc as [previous|e']; simpl in Hacc.
    + by eapply setattr_Raise.
    + injection Hacc as <-. by apply IH.
Qed.

(** *** [save] on the instance *)

Lemma save_instance_Ok (rows : list row) (kwargs : gmap string val)
    (instance r' : row) (rows' : list row) :
  "id" ∈ field_names t →
  save_instance t rows kwargs instance = Ok (r', rows') →
  kwargs !! "save" = None
  ∧ save (unique_constraints t) rows (columns t instance)
    = Ok (columns t r', rows')
  ∧ (r' = instance
     ∨ (pk_of (columns t instance) = None
        ∧ r' = <["id" := VInt (next_id rows)]> instance)).
Proof.
  intros Hid. unfold save_instance. case_bool_decide as Hsave; [done|].
  destruct (save _ rows (columns t instance)) as [[stored rows1]|e] eqn:Hs;
    [|done].
  intros [= <- <-]. split.
  { destruct (kwargs !! "save") as [v|]; [|done]. destruct Hsave. by eexists. }
  assert (stored = columns t instance
          ∨ (pk_of (columns t instance) = None
             ∧ stored = <["id" := VInt (next_id rows)]> (columns t instance)))
    as [->|[Hpk ->]].
  { destruct (save_Ok _ _ _ _ _ Hs)
      as [(n & _ & _ & _ & -> & _)|[_ (_ & _ & _ & ->)%insert_row_Ok]];
      [by left|].
    destruct (pk_of (columns t instance)); [by left|by right]. }
  - rewrite columns_union. split; [done|by left].
  - rewrite <-insert_union_l, columns_union. split; [|by right].
    unfold columns at 2. by rewrite map_filter_insert_True.
Qed.

Lemma save_instance_Raise (rows : list row) (kwargs : gmap string val)
    (instance : row) e :
  save_instance t rows kwargs instance = Raise e →
  e = TypeError ∨ e = IntegrityError.
Proof.
  unfold save_instance. case_bool_decide; [intros [= <-]; by left|].
  destruct (save _ _ _) as [[stored rows1]|e'] eqn:Hs; [done|].
  intros [= <-]. apply save_Raise in Hs as ->. by right.
Qed.

(** *** The constructor *)

Lemma init_Raise (kw : row) e :
  init t kw = Raise e → e = ValueError ∨ e = TypeError.
Proof.
  unfold init. destruct (_ && _); [intros [= <-]; by left|].
  case_bool_decide; [done|]. intros [= <-]. by right.
Qed.

(** The instance that the constructor makes has fields only. *)
Lemma init_fields (kw r : row) :
  translation_table t → init t kw = Ok r →
  map_Forall (λ key _, key ∈ field_names t) r.
Proof.
  intros (Hid & Hs & _). unfold init. destruct (_ && _); [done|].
  case_bool_decide; [|done]. intros [= <-].
  pose proof (columns_fields kw) as Hf.
  destruct (kw !! "i18n_source_id"), (kw !! "pk");
    repeat (apply map_Forall_insert_2; [done|]); done.
Qed.

(** With the pair and updates of the content, the constructor takes every
    keyword as a field. *)
Lemma init_content (kwargs : gmap string val) source language :
  translation_table t → content_only t kwargs →
  init t (<["i18n_source" := VInt source]>
            (<["i18n_language" := VStr language]> kwargs))
  = Ok (<["i18n_source" := VInt source]>
          (<["i18n_language" := VStr language]> kwargs)).
Proof.
  intros (Hid & Hs & Hl & Hpk & Hsid) Hcontent.
  assert (map_Forall (λ key _, key ∈ field_names t)
            (<["i18n_source" := VInt source]>
               (<["i18n_language" := VStr language]> kwargs))) as Hall.
  { repeat (apply map_Forall_insert_2; [done|]).
    by apply content_only_fields. }
  unfold init. rewrite lookup_insert_eq. simpl. rewrite andb_false_r.
  rewrite bool_decide_eq_true_2
    by (intros key value Hkey; left; by apply (Hall key value)).
  rewrite !lookup_insert_ne by done.
  rewrite !(content_only_None kwargs)
    by (done || (unfold reserved_names; set_solver)).
  by rewrite columns_id.
Qed.

(** *** The three ways of [translate] *)

(** A row matches the pair: its attributes are set and it is saved. *)
Lemma translate_found (rows : list row) source language kwargs (r : row) :
  kwargs ≠ ∅ →
  filter_rows (pair_lookup source language) rows = [r] →
  translate t rows source language kwargs
  = (instance ← setattrs r kwargs; save_instance t rows kwargs instance).
Proof.
  intros Hne Hf. unfold translate.
  rewrite bool_decide_eq_false_2 by done.
  apply get_Ok in Hf. rewrite Hf. simpl.
  destruct (setattrs r kwargs) as [instance|e] eqn:Hset; simpl.
  - destruct (save_instance t rows kwargs instance) as [|e] eqn:Hsave;
      [done|].
    by destruct (save_instance_Raise _ _ _ _ Hsave) as [-> | ->].
  - by rewrite (setattrs_Raise _ _ _ Hset).
Qed.

(** No row matches the pair: one is created. *)
Lemma translate_not_found (rows : list row) source language kwargs :
  kwargs ≠ ∅ →
  filter_rows (pair_lookup source language) rows = [] →
  translate t rows source language kwargs
  = create_translation t rows source language kwargs.
Proof.
  intros Hne Hf. unfold translate.
  rewrite bool_decide_eq_false_2 by done.
  apply get_DoesNotExist in Hf. by rewrite Hf.
Qed.

(** Several rows match the pair: the lookup fails and nothing is
    written. *)
Lemma translate_ambiguous (rows : list row) source language kwargs x y k :
  filter_rows (pair_lookup source language) rows = x :: y :: k →
  translate t rows source language kwargs
  = Raise MultipleObjectsReturned.
Proof.
  intros Hf. unfold translate, get. rewrite Hf. simpl.
  by case_bool_decide.
Qed.

(** The UPDATE of [save] rewrites one place of the table. *)
Lemma update_in_place constraints (rows : list row) (r r' : row) i n :
  table_ok constraints rows →
  rows !! i = Some r → pk_of r = Some n →
  (λ x, if has_pk n x then r' else x) <$> rows = <[i := r']> rows.
Proof.
  intros [_ Hres] Hi Hpk. apply list_eq. intros j.
  rewrite list_lookup_fmap.
  destruct (decide (i = j)) as [<-|Hne].
  - rewrite list_lookup_insert_eq by (by eapply lookup_lt_Some).
    rewrite Hi. simpl. unfold has_pk. by rewrite bool_decide_eq_true_2.
  - rewrite list_lookup_insert_ne by done.
    destruct (rows !! j) as [x|] eqn:Hj; [|done]. simpl.
    unfold has_pk. rewrite bool_decide_eq_false_2; [done|].
    intros Hx. apply Hne. by eapply pk_unique.
Qed.

Lemma content_only_pair (kwargs : gmap string val) (r : row)
    source language :
  content_only t kwargs →
  matches (pair_lookup source language) r →
  matches (pair_lookup source language) (kwargs ∪ r)
  ∧ pk_of (kwargs ∪ r) = pk_of r.
Proof.
  intros Hcontent [Hrs Hrl]%matches_pair.
  assert (kwargs !! "id" = None) as Hid
    by (apply content_only_None; [done|unfold reserved_names; set_solver]).
  assert (kwargs !! "i18n_source" = None) as Hs
    by (apply content_only_None; [done|unfold reserved_names; set_solver]).
  assert (kwargs !! "i18n_language" = None) as Hl
    by (apply content_only_None; [done|unfold reserved_names; set_solver]).
  split.
  - apply matches_pair. by rewrite !lookup_union_r.
  - unfold pk_of. by rewrite lookup_union_r.
Qed.

(** With updates of the content, the creation inserts the pair and the
    updates. *)
Lemma create_translation_content (rows : list row) source language kwargs :
  translation_table t → content_only t kwargs →
  create_translation t rows source language kwargs
  = insert_row (unique_constraints t) rows
      (<["i18n_source" := VInt source]>
         (<["i18n_language" := VStr language]> kwargs)).
Proof.
  intros Htable Hcontent. unfold create_translation.
  rewrite bool_decide_eq_false_2.
  - unfold create. by rewrite init_content.
  - rewrite !(content_only_None kwargs)
      by (done || (unfold reserved_names; set_solver)).
    intros [[? [=]]|[? [=]]].
Qed.

(** With updates of the content, the row found is saved with the updates
    over its attributes, and the instance returned is the row written. *)
Lemma translate_found_content (rows : list row) source language kwargs
    (r : row) :
  well_kept t rows → kwargs ≠ ∅ → content_only t kwargs →
  filter_rows (pair_lookup source language) rows = [r] →
  translate t rows source language kwargs
  = save (unique_constraints t) rows (kwargs ∪ r)
  ∧ ∃ n, pk_of r = Some n ∧ pk_of (kwargs ∪ r) = Some n
         ∧ r ∈ rows
         ∧ matches (pair_lookup source language) r
         ∧ matches (pair_lookup source language) (kwargs ∪ r)
         ∧ map_Forall (λ key _, key ∈ field_names t) (kwargs ∪ r).
Proof.
  intros (Htable & Hok & Hcols) Hne Hcontent Hf.
  assert (r ∈ filter (matches (pair_lookup source language)) rows)
    as [Hm Hin]%list_elem_of_filter.
  { unfold filter_rows in Hf. rewrite Hf. by left. }
  destruct (content_only_pair _ _ _ _ Hcontent Hm) as [Hm' Hpk'].
  assert (is_Some (pk_of r)) as [n Hpk].
  { destruct Hok as [Hpks _]. by eapply (proj1 (Forall_forall _ rows) Hpks). }
  assert (map_Forall (λ key _, key ∈ field_names t) (kwargs ∪ r)) as Hall.
  { apply union_fields; [by apply content_only_fields|].
    by eapply (proj1 (Forall_forall _ rows) Hcols). }
  split; [|exists n; by rewrite Hpk'].
  rewrite (translate_found _ _ _ _ r), setattrs_content by done. simpl.
  unfold save_instance.
  rewrite (content_only_None kwargs "save")
    by (done || (unfold reserved_names; set_solver)).
  rewrite bool_decide_eq_false_2 by (by intros [? [=]]).
  rewrite columns_id by done.
  destruct (save _ rows (kwargs ∪ r)) as [[stored rows']|e] eqn:Hs; [|done].
  destruct (save_Ok _ _ _ _ _ Hs)
    as [(n' & _ & _ & _ & -> & _)|[Hnone _]].
  - by rewrite (idemp_L (∪)).
  - rewrite Hpk', Hpk in Hnone. specialize (Hnone n eq_refl).
    apply not_true_iff_false in Hnone. destruct Hnone.
    apply existsb_exists. exists r. split; [by apply list_elem_of_In|].
    unfold has_pk. by rewrite bool_decide_eq_true_2.
Qed.

Lemma columns_ok_snoc (rows : list row) (r : row) :
  columns_ok t rows → map_Forall (λ key _, key ∈ field_names t) r →
  columns_ok t (rows ++ [r]).
Proof.
  intros Hcols Hr. apply Forall_app. split; [done|].
  by apply Forall_singleton.
Qed.

Lemma insert_row_columns_ok (rows : list row) (r r1 : row) rows1 :
  "id" ∈ field_names t → columns_ok t rows →
  map_Forall (λ key _, key ∈ field_names t) r →
  insert_row (unique_constraints t) rows r = Ok (r1, rows1) →
  columns_ok t rows1.
Proof.
  intros Hid Hcols Hr (-> & _ & _ & ->)%insert_row_Ok.
  apply columns_ok_snoc; [done|].
  destruct (pk_of r); [done|]. by apply map_Forall_insert_2.
Qed.

Lemma save_columns_ok (rows : list row) (r r1 : row) rows1 :
  "id" ∈ field_names t → columns_ok t rows →
  map_Forall (λ key _, key ∈ field_names t) r →
  save (unique_constraints t) rows r = Ok (r1, rows1) →
  columns_ok t rows1.
Proof.
  intros Hid Hcols Hr [(n & _ & _ & _ & -> & ->)|[_ Hins]]%save_Ok;
    [|by eapply insert_row_columns_ok].
  apply Forall_fmap. eapply Forall_impl; [exact Hcols|].
  intros x Hx. simpl. by destruct (has_pk n x).
Qed.

(** One call of [translate] with updates of the content: the pair then
    names the returned row and no other, the row holds the updates, and it
    either took the place of the row that matched or was appended to a
    table without a match. *)
Lemma translate_Ok (rows : list row) source language kwargs
    (r' : row) rows' :
  well_kept t rows → kwargs ≠ ∅ → content_only t kwargs →
  translate t rows source language kwargs = Ok (r', rows') →
  well_kept t rows'
  ∧ filter_rows (pair_lookup source language) rows' = [r']
  ∧ ((∃ i r, rows !! i = Some r
             ∧ filter_rows (pair_lookup source language) rows = [r]
             ∧ r' = kwargs ∪ r
             ∧ rows' = <[i := r']> rows)
     ∨ (filter_rows (pair_lookup source language) rows = []
        ∧ r' = <["id" := VInt (next_id rows)]>
                 (<["i18n_source" := VInt source]>
                    (<["i18n_language" := VStr language]> kwargs))
        ∧ rows' = (rows ++ [r'])%list)).
Proof.
  intros Hkept Hne Hcontent Htr.
  pose proof Hkept as (Htable & Hok & Hcols).
  pose proof Htable as (Hid & Hs & Hl & _).
  destruct (filter_rows (pair_lookup source language) rows)
    as [|r [|y k]] eqn:Hf.
  - (* create *)
    rewrite translate_not_found, create_translation_content in Htr by done.
    assert (map_Forall (λ key _, key ∈ field_names t)
              (<["i18n_source" := VInt source]>
                 (<["i18n_language" := VStr language]> kwargs))) as Hall.
    { repeat (apply map_Forall_insert_2; [done|]).
      by apply content_only_fields. }
    split.
    { split; [done|]. split; [by eapply insert_row_table_ok|].
      by eapply insert_row_columns_ok. }
    apply insert_row_Ok in Htr as (-> & _ & _ & Hr').
    unfold pk_of in Hr' at 1.
    rewrite !lookup_insert_ne in Hr' by done.
    rewrite (content_only_None kwargs "id") in Hr'
      by (done || (unfold reserved_names; set_solver)).
    assert (matches (pair_lookup source language) r') as Hm.
    { apply matches_pair. subst r'.
      rewrite lookup_insert_ne, lookup_insert_eq by done.
      by rewrite !lookup_insert_ne, lookup_insert_eq by done. }
    split; [|by right].
    unfold filter_rows in *.
    by rewrite filter_app, Hf, filter_cons, decide_True.
  - (* update *)
    destruct (translate_found_content rows source language kwargs r
                Hkept Hne Hcontent Hf)
      as (Heq & n & Hpk & Hpk' & [i Hi]%list_elem_of_lookup_1
          & Hm & Hm' & Hall).
    rewrite Heq in Htr.
    split.
    { split; [done|]. split; [by eapply save_table_ok|].
      by eapply save_columns_ok. }
    apply save_Ok in Htr as [(n' & Hn' & _ & _ & -> & ->)|[Hnone _]].
    + rewrite Hpk' in Hn'. injection Hn' as <-.
      rewrite (update_in_place _ rows r (kwargs ∪ r) i n Hok) by done.
      split; [by eapply filter_replace|].
      left. exists i, r. done.
    + rewrite Hpk' in Hnone. specialize (Hnone n eq_refl).
      apply not_true_iff_false in Hnone. destruct Hnone.
      apply existsb_exists. exists r.
      split; [apply list_elem_of_In; by eapply list_elem_of_lookup_2|].
      unfold has_pk. by rewrite bool_decide_eq_true_2.
  - by rewrite (translate_ambiguous _ _ _ _ r y k) in Htr.
Qed.

(** A call of [translate] that returns leaves the rows as the database
    keeps them, whatever the keyword arguments. *)
Lemma translate_well_kept (rows : list row) source language kwargs
    (r' : row) rows' :
  well_kept t rows →
  translate t rows source language kwargs = Ok (r', rows') →
  well_kept t rows'.
Proof.
  intros Hkept Htr.
  pose proof Hkept as (Htable & Hok & Hcols).
  pose proof Htable as (Hid & _).
  destruct (decide (kwargs = ∅)) as [->|Hne].
  - unfold translate in Htr. rewrite bool_decide_eq_true_2 in Htr by done.
    destruct (get _ rows); [|done]. simpl in Htr. by injection Htr as _ <-.
  - destruct (filter_rows (pair_lookup source language) rows)
      as [|r [|y k]] eqn:Hf.
    + rewrite translate_not_found in Htr by done.
      unfold create_translation in Htr.
      case_bool_decide; [done|]. unfold create in Htr.
      destruct (init t _) as [instance|e] eqn:Hinit; [|done].
      simpl in Htr. apply init_fields in Hinit; [|done].
      split; [done|]. split; [by eapply insert_row_table_ok|].
      by eapply insert_row_columns_ok.
    + rewrite (translate_found _ _ _ _ r) in Htr by done.
      destruct (setattrs r kwargs) as [instance|e]; [|done].
      simpl in Htr.
      apply save_instance_Ok in Htr as (_ & Hsave & _); [|done].
      split; [done|]. split; [by eapply save_table_ok|].
      eapply save_columns_ok; [done..| |exact Hsave].
      apply columns_fields.
    + by rewrite (translate_ambiguous _ _ _ _ r y k) in Htr.
Qed.

End translate.

(** ** When the writes go through *)

Section writes_succeed.

Import ORM I18nModel.


(** A second row for a pair is refused by a table that has the constraint
    (source, language). *)
Lemma second_create_rejected (t : table) (rows : list row)
    source language (kwargs : gmap string val) (r : row) :
  translation_table t → pair_columns ∈ unique_constraints t →
  r ∈ rows → matches (pair_lookup source language) r →
  ∃ e, create_translation t rows source language kwargs = Raise e.
Proof.
  intros (Hid & Hs & Hl & Hpk & Hsid) Hc Hr Hm. unfold create_translation.
  case_bool_decide as Hdup; [by eexists|].
  unfold create.
  destruct (init t _) as [instance|e] eqn:Hinit; [|by eexists]. simpl.
  assert (matches (pair_lookup source language) instance) as Hi.
  { apply matches_pair. unfold init in Hinit.
    rewrite lookup_insert_eq in Hinit. simpl in Hinit.
    rewrite andb_false_r in Hinit.
    case_bool_decide as Hvalid; [|done].
    rewrite !(lookup_insert_ne _ _ "i18n_source_id") in Hinit by done.
    rewrite !(lookup_insert_ne _ _ "pk") in Hinit by done.
    destruct (kwargs !! "i18n_source_id") as [v|] eqn:Hksid.
    { destruct (Hvalid "i18n_source_id" v) as [Hf|[[=]|(_ & _ & Hnone)]];
        [by rewrite !lookup_insert_ne|done|].
      by rewrite lookup_insert_eq in Hnone. }
    injection Hinit as <-.
    destruct (kwargs !! "pk");
      rewrite ?(lookup_insert_ne _ "id") by done;
      rewrite !columns_lookup by done;
      rewrite lookup_insert_eq, lookup_insert_ne, lookup_insert_eq; done. }
  unfold insert_row.
  match goal with |- context [conflicts _ ?new rows] => set (r' := new) end.
  assert (matches (pair_lookup source language) r') as Hm'.
  { apply matches_pair. apply matches_pair in Hi as [His Hil]. subst r'.
    destruct (pk_of _); [|rewrite !(lookup_insert_ne _ "id") by done];
      done. }
  rewrite (conflicts_true _ r' r rows pair_columns);
    [by eexists|by right|done|by apply (collides_pair r' r source language)].
Qed.


End writes_succeed.

(** ** The claims on [translate] *)

Section translate_claims.

Import ORM I18nModel.



Lemma post_table_translation_table : translation_table Samples.post_table.
Proof. repeat split; apply (bool_decide_unpack _); by vm_compute. Qed.


(** a table of one row with a key and with columns of the table *)
Lemma well_kept_singleton (r : row) :
  is_Some (pk_of r) →
  map_Forall (λ key _, key ∈ field_names Samples.post_table) r →
  well_kept Samples.post_table [r].
Proof.
  intros Hpk Hcols. split; [apply post_table_translation_table|]. split.
  - split; [by apply Forall_singleton|].
    intros [|i] [|j] x y Hne Hi Hj; done.
  - by apply Forall_singleton.
Qed.

Lemma well_kept_hallo : well_kept Samples.post_table [Fixtures.hallo].
Proof.
  apply well_kept_singleton; [by eexists|].
  apply (bool_decide_unpack _). by vm_compute.
Qed.

Lemma content_only_title (v : val) :
  content_only Samples.post_table {["title" := v]}.
Proof.
  apply map_Forall_singleton.
  split; apply (bool_decide_unpack _); by vm_compute.
Qed.




End translate_claims.







(** ** The claims on the derived schema *)

Lemma table_constraints_entry (cls : class_attrs) (ut entry : pyval) :
  Meta cls ≫= unique_together = Some ut →
  entry ∈ py_items ut →
  ORM.columns_of entry ∈ ORM.table_constraints cls.
Proof.
  intros Hut Hentry. unfold ORM.table_constraints. rewrite Hut.
  apply elem_of_app. left. by apply list_elem_of_fmap_2.
Qed.

(** Without a declaration, or with a single tuple of names declared, the
    table has the constraint (source, language). *)
Lemma derived_pair_constraint env cls_name bases attrs cls' meta :
  "I18nModel" ∈ bases →
  I18nBase.new env cls_name bases attrs = Ok cls' →
  Meta attrs = Some meta →
  (unique_together meta = None
   ∨ ∃ ut first, unique_together meta = Some ut
                 ∧ py_first ut = Ok first ∧ is_str first = true) →
  pair_columns ∈ ORM.table_constraints cls'.
Proof.
  intros Hbases Hnew Hmeta Hdecl.
  destruct (new_Ok_inv _ _ _ _ Hbases _ Hnew)
    as (meta' & source & ut0 & ut & Hmeta' & Hsource & Hut0 & _).
  rewrite Hmeta in Hmeta'. injection Hmeta' as <-.
  destruct (new_unique_together _ _ _ _ Hbases _ _ _ Hnew Hmeta Hsource)
    as (ut0' & ut' & Hut0' & Hut' & _ & Hitems).
  rewrite Hut0 in Hut0'. injection Hut0' as <-.
  apply (table_constraints_entry cls' ut' I18nBase.source_language Hut').
  rewrite Hitems. apply elem_of_app. left.
  destruct Hdecl as [Hnone|(d & first & Hd & Hfirst & Hstr)].
  - rewrite Hnone in Hut0. injection Hut0 as <-. by left.
  - rewrite Hd, (add_source_language_single d first) in Hut0 by done.
    injection Hut0 as <-. right. by left.
Qed.

(** C2. Evaluation of the metaclass on a class whose [Meta] declares
    [unique_together = (('title', 'slug'),)]: the two names [i18n_source]
    and [i18n_language] are appended as two entries, and the pair is not an
    entry of the result. *)
Theorem declared_list_gets_two_entries :
  ∃ cls,
    I18nBase.new Fixtures.blog "PostI18N" ["I18nModel"]
      (Fixtures.body (mkMeta None None (Some (PTuple [Fixtures.title_slug]))))
    = Ok cls
    ∧ Meta cls ≫= unique_together
      = Some (PTuple [Fixtures.title_slug;
                      PStr "i18n_source"; PStr "i18n_language";
                      language_with "slug"])
    ∧ (I18nBase.source_language
       ∉ [Fixtures.title_slug; PStr "i18n_source"; PStr "i18n_language";
          language_with "slug"]).
Proof.
  eexists. split; [vm_compute; reflexivity|]. split; [reflexivity|].
  intros Hin.
  repeat (apply elem_of_cons in Hin as [Hin|Hin]; [discriminate Hin|]).
  by apply elem_of_nil in Hin.
Qed.






(** ** The claims on the resolution of the fields and of the source *)

(** C6, as stated, fails: [translation_fields = ('nosuch', 'title')] names
    no field of [Post] with [nosuch], and the class is made all the same. *)
Lemma missing_field_is_accepted :
  "nosuch" ∈ ["nosuch"; "title"]
  ∧ ("nosuch" ∉ name <$> _meta_fields Fixtures.Post)
  ∧ ∃ cls,
      I18nBase.new Fixtures.blog "PostI18N" ["I18nModel"]
        (Fixtures.body (mkMeta None (Some ["nosuch"; "title"]) None))
      = Ok cls
      ∧ members cls !! "nosuch" = None
      ∧ members cls !! "title"
        = Some (AField (mkField "title" CharField false)).
Proof.
  split; [by left|]. split.
  - apply (bool_decide_unpack _). vm_compute. exact I.
  - eexists. split; [vm_compute; reflexivity|]. split; reflexivity.
Qed.

(** C6, amended. With a non-empty [translation_fields], the resolver uses
    exactly the listed names in the order given; the class is made whenever
    the source and the declared constraints resolve, whether or not the
    names are fields of the source; a listed name of a field of the source
    is bound to a copy of the field, and any other name keeps what the class
    body bound it to. *)
Theorem explicit_fields_are_not_checked
    (env : environment) (cls_name : string) (bases : list string)
    (attrs : class_attrs) (meta : meta_options) (source : Model)
    (ut0 : pyval) (fields : list string) :
  "I18nModel" ∈ bases →
  Meta attrs = Some meta →
  I18nBase.resolve_source env cls_name attrs (source_model meta) = Ok source →
  I18nBase.add_source_language (unique_together meta) = Ok ut0 →
  translation_fields meta = Some fields →
  fields ≠ [] →
  I18nBase.resolve_fields source (Some fields) = fields
  ∧ ∃ cls',
      I18nBase.new env cls_name bases attrs = Ok cls'
      ∧ (∀ n, n ≠ "i18n_source" →
              n ∈ fields → n ∈ name <$> _meta_fields source →
              ∃ f, f ∈ _meta_fields source ∧ name f = n
                   ∧ members cls' !! n
                     = Some (AField (mkField n (ftype f) false)))
      ∧ (∀ n, n ≠ "i18n_source" →
              ¬ (n ∈ fields ∧ n ∈ name <$> _meta_fields source) →
              members cls' !! n = members attrs !! n).
Proof.
  intros Hbases Hmeta Hsource Hut0 Hfields Hne.
  assert (I18nBase.resolve_fields source (Some fields) = fields) as Hres
    by (unfold I18nBase.resolve_fields; simpl; by destruct fields).
  split; [exact Hres|].
  destruct (new_Ok_intro env cls_name bases attrs Hbases meta source ut0
              Hmeta Hsource Hut0) as [cls' Hnew].
  exists cls'. split; [exact Hnew|].
  destruct (new_Ok_inv _ _ _ _ Hbases _ Hnew)
    as (meta' & source' & _ & _ & Hmeta' & Hsource' & _ & _ & _ & Hmem).
  rewrite Hmeta in Hmeta'. injection Hmeta' as <-.
  rewrite Hsource in Hsource'. injection Hsource' as <-.
  rewrite Hfields, Hres in Hmem. unfold I18nBase.copy_fields in Hmem.
  split.
  - intros n Hfk Hin Hsrc.
    destruct (copy_fields_lookup_copied fields (_meta_fields source)
                (members attrs) [] n Hin Hsrc) as (f & Hf & Hname & Hlook).
    exists f. split; [done|]. split; [done|].
    by rewrite Hmem, lookup_insert_ne.
  - intros n Hfk Hnot. rewrite Hmem, lookup_insert_ne by done.
    by apply copy_fields_lookup_other.
Qed.

Lemma explicit_fields_are_not_checked_witness :
  "I18nModel" ∈ ["I18nModel"]
  ∧ ["nosuch"; "title"] ≠ []
  ∧ I18nBase.resolve_fields Fixtures.Post (Some ["nosuch"; "title"])
    = ["nosuch"; "title"]
  ∧ ∃ cls',
      I18nBase.new Fixtures.blog "PostI18N" ["I18nModel"]
        (Fixtures.body (mkMeta None (Some ["nosuch"; "title"]) None))
      = Ok cls'.
Proof.
  assert ("I18nModel" ∈ ["I18nModel"]) as Hbases by (by left).
  assert (["nosuch"; "title"] ≠ ([] : list string)) as Hne by done.
  split; [exact Hbases|]. split; [exact Hne|].
  destruct (explicit_fields_are_not_checked Fixtures.blog "PostI18N"
              ["I18nModel"]
              (Fixtures.body (mkMeta None (Some ["nosuch"; "title"]) None))
              (mkMeta None (Some ["nosuch"; "title"]) None) Fixtures.Post
              (PTuple [I18nBase.source_language]) ["nosuch"; "title"]
              Hbases eq_refl eq_refl eq_refl eq_refl Hne)
    as (Hres & cls' & Hnew & _).
  split; [exact Hres|]. by exists cls'.
Defined.

(** How a dotted [source_model] resolves. *)
Lemma resolve_dotted_source env cls_name attrs (s : string) :
  PyStr.contains_char "." s = true →
  I18nBase.resolve_source env cls_name attrs (Some (SrcStr s))
  = match get_model env (nth 0 (PyStr.split "." s) "")
                        (nth 1 (PyStr.split "." s) "") with
    | Some m => Ok m
    | None =>
        if PyStr.endswith cls_name "I18N"
        then get_class env (PyStr.drop_last 4 cls_name) (__module__ attrs)
        else Raise (ImproperlyConfigured "Please specify the source model")
    end.
Proof.
  intros Hdot. unfold I18nBase.resolve_source, I18nBase.lookup_source.
  destruct s as [|c s]; [done|]. rewrite Hdot.
  destruct (get_model _ _ _) as [m|]; simpl; [done|].
  destruct (PyStr.endswith cls_name "I18N"); [|done].
  by destruct (get_class _ _ _).
Qed.

(** A dotted name that the registry does not know is a configuration error
    when the name of the class does not end with [I18N]. *)
Lemma dotted_source_unknown env cls_name attrs (s : string) :
  PyStr.contains_char "." s = true →
  get_model env (nth 0 (PyStr.split "." s) "")
                (nth 1 (PyStr.split "." s) "") = None →
  PyStr.endswith cls_name "I18N" = false →
  I18nBase.resolve_source env cls_name attrs (Some (SrcStr s))
  = Raise (ImproperlyConfigured "Please specify the source model").
Proof.
  intros Hdot Hnone Hsuffix.
  by rewrite resolve_dotted_source, Hnone, Hsuffix.
Qed.

(** C7. Evaluation on [class PostI18N(I18nModel)] whose [Meta] declares
    [source_model = 'blog.Missing']: the registry has no such model, and the
    class is made as a translation of [Post], the class that the naming
    convention finds. *)
Theorem unknown_dotted_source_falls_back :
  get_model Fixtures.blog "blog" "Missing" = None
  ∧ PyStr.split "." "blog.Missing" = ["blog"; "Missing"]
  ∧ I18nBase.resolve_source Fixtures.blog "PostI18N"
      (Fixtures.body (mkMeta (Some (SrcStr "blog.Missing")) None None))
      (Some (SrcStr "blog.Missing")) = Ok Fixtures.Post
  ∧ I18nBase.new Fixtures.blog "PostI18N" ["I18nModel"]
      (Fixtures.body (mkMeta (Some (SrcStr "blog.Missing")) None None))
    = Ok Fixtures.PostI18N.
Proof.
  split; [reflexivity|]. split; [reflexivity|].
  split; vm_compute; reflexivity.
Qed.

(** ** The accessors of the manager *)

Section accessors.

Import I18nManager.

Variable settings : Settings.
Variable cls : gmap string method.

(** A name that no language gives keeps its binding. *)
Lemma new_lookup_other (n : string) :
  (∀ code, code ∈ (LANGUAGES settings).*1 → accessor_name code ≠ n) →
  new settings cls !! n = cls !! n.
Proof.
  unfold new. induction (LANGUAGES settings) as [|language l IH] using rev_ind;
    intros Hn; [done|].
  rewrite foldl_snoc. simpl. rewrite lookup_insert_ne.
  - apply IH. intros code Hcode. apply Hn.
    rewrite fmap_app. apply elem_of_app. by left.
  - apply Hn. rewrite fmap_app. apply elem_of_app. right. by left.
Qed.

(** Every language of the set has an accessor under its name; it filters by
    the last language of the set that gives this name. *)
Lemma new_lookup_accessor (code : string) :
  code ∈ (LANGUAGES settings).*1 →
  ∃ code', code' ∈ (LANGUAGES settings).*1
           ∧ accessor_name code' = accessor_name code
           ∧ new settings cls !! accessor_name code
             = Some (LanguageMethod code').
Proof.
  unfold new. induction (LANGUAGES settings) as [|language l IH] using rev_ind;
    intros Hcode; [by apply elem_of_nil in Hcode|].
  rewrite foldl_snoc. simpl.
  destruct (decide (accessor_name language.1 = accessor_name code)) as [Heq|Hne].
  - exists language.1. rewrite Heq, lookup_insert_eq. split; [|done].
    rewrite fmap_app. apply elem_of_app. right. by left.
  - rewrite fmap_app in Hcode. apply elem_of_app in Hcode as [Hcode|Hcode].
    + destruct (IH Hcode) as (code' & Hin & Hname & Hlook).
      exists code'. rewrite lookup_insert_ne by done.
      split; [|done]. rewrite fmap_app. apply elem_of_app. by left.
    + apply list_elem_of_singleton in Hcode. simpl in Hcode. congruence.
Qed.

End accessors.




(** C5, as stated, fails: the manager of the language set en, de, pt-br has
    an accessor named [en]. *)
Lemma default_language_has_accessor :
  ¬ (is_Some (I18nManager.new Fixtures.site I18nManager.class_body !! "de")
     ∧ is_Some (I18nManager.new Fixtures.site I18nManager.class_body
                  !! "pt_br")
     ∧ I18nManager.new Fixtures.site I18nManager.class_body !! "en" = None).
Proof. intros (_ & _ & Hen). vm_compute in Hen. discriminate Hen. Qed.

(** C5, amended. For the language set en, de, pt-br, whatever the default
    language, the manager has the accessors [de], [pt_br] and [en], each the
    closure of its code, and none named [pt-br]. *)
Theorem accessors_of_the_sample_set (default : string) :
  I18nManager.new (mkSettings Fixtures.languages default)
    I18nManager.class_body !! "de"
  = Some (I18nManager.LanguageMethod "de")
  ∧ I18nManager.new (mkSettings Fixtures.languages default)
      I18nManager.class_body !! "pt_br"
    = Some (I18nManager.LanguageMethod "pt-br")
  ∧ I18nManager.new (mkSettings Fixtures.languages default)
      I18nManager.class_body !! "en"
    = Some (I18nManager.LanguageMethod "en")
  ∧ I18nManager.new (mkSettings Fixtures.languages default)
      I18nManager.class_body !! "pt-br"
    = None.
Proof. repeat split; vm_compute; reflexivity. Qed.

(** ** The template tag *)

Lemma or_active_twice (language : option string) (active : string) :
  or_active (Some (or_active language active)) active
  = or_active language active.
Proof.
  unfold or_active. destruct language as [[|c s]|]; by destruct active.
Qed.

Lemma call_get_by_lang (cls : gmap string I18nManager.method)
    (active : string) (self : list row) (code : string) :
  cls !! "get_by_lang" = Some I18nManager.GetByLang →
  I18nManager.call cls active self "get_by_lang" [code]
  = I18nManager.OneRow
      <$> ORM.get [("i18n_language", VStr (or_active (Some code) active))]
            self.
Proof. intros Hget. unfold I18nManager.call. by rewrite Hget. Qed.

(** The related manager filtered by language is the lookup of the pair. *)
Lemma related_by_language (rows : list row) (pk : Z) (language : string) :
  ORM.filter_rows [("i18n_language", VStr language)]
    (ORM.filter_rows [("i18n_source", VInt pk)] rows)
  = ORM.filter_rows (I18nModel.pair_lookup pk language) rows.
Proof.
  unfold ORM.filter_rows. rewrite list_filter_filter.
  apply list_filter_iff. intros r. rewrite matches_pair.
  unfold ORM.matches. rewrite !Forall_singleton. simpl. tauto.
Qed.

(** C9. The tag returns the object itself when the language is the default
    one; otherwise, on a manager whose [get_by_lang] is the method of the
    class body, it returns the translation of the object in that language
    when there is exactly one, and the object itself when the object has no
    translations, when no row or several rows match: the result is always
    the object or one of its rows, never an error. *)
Theorem tag_translate_or_original
    (settings : Settings) (cls : gmap string I18nManager.method)
    (active : string) (rows : list row)
    (obj : TemplateTags.template_obj) (language : option string) :
  cls !! "get_by_lang" = Some I18nManager.GetByLang →
  (or_active language active = LANGUAGE_CODE settings →
   TemplateTags.translate settings cls active rows obj language
   = TemplateTags.Obj obj)
  ∧ (or_active language active ≠ LANGUAGE_CODE settings →
     match obj with
     | TemplateTags.SourceInstance pk =>
         match ORM.filter_rows
                 (I18nModel.pair_lookup pk (or_active language active)) rows
         with
         | [r] =>
             TemplateTags.translate settings cls active rows obj language
             = TemplateTags.Value (I18nManager.OneRow r)
         | _ =>
             TemplateTags.translate settings cls active rows obj language
             = TemplateTags.Obj obj
         end
     | TemplateTags.OtherObject _ =>
         TemplateTags.translate settings cls active rows obj language
         = TemplateTags.Obj obj
     end)
  ∧ (TemplateTags.translate settings cls active rows obj language
     = TemplateTags.Obj obj
     ∨ ∃ pk r,
         obj = TemplateTags.SourceInstance pk
         ∧ r ∈ rows
         ∧ r !! "i18n_source" = Some (VInt pk)
         ∧ r !! "i18n_language" = Some (VStr (or_active language active))
         ∧ TemplateTags.translate settings cls active rows obj language
           = TemplateTags.Value (I18nManager.OneRow r)).
Proof.
  intros Hget.
  assert (or_active language active ≠ LANGUAGE_CODE settings →
          match obj with
          | TemplateTags.SourceInstance pk =>
              match ORM.filter_rows
                      (I18nModel.pair_lookup pk (or_active language active))
                      rows
              with
              | [r] =>
                  TemplateTags.translate settings cls active rows obj language
                  = TemplateTags.Value (I18nManager.OneRow r)
              | _ =>
                  TemplateTags.translate settings cls active rows obj language
                  = TemplateTags.Obj obj
              end
          | TemplateTags.OtherObject _ =>
              TemplateTags.translate settings cls active rows obj language
              = TemplateTags.Obj obj
          end) as Hother.
  { intros Hne. unfold TemplateTags.translate.
    apply String.eqb_neq in Hne. rewrite Hne.
    destruct obj as [pk|v]; [|done].
    unfold TemplateTags.translations, mbind, result_bind.
    rewrite call_get_by_lang, or_active_twice by done.
    unfold ORM.get. rewrite related_by_language.
    by destruct (ORM.filter_rows _ rows) as [|r [|y k]]. }
  split; [|split; [exact Hother|]].
  - intros Heq. unfold TemplateTags.translate.
    apply String.eqb_eq in Heq. by rewrite Heq.
  - destruct (decide (or_active language active = LANGUAGE_CODE settings))
      as [Heq|Hne].
    + left. unfold TemplateTags.translate.
      apply String.eqb_eq in Heq. by rewrite Heq.
    + specialize (Hother Hne). destruct obj as [pk|v]; [|by left].
      destruct (ORM.filter_rows _ rows) as [|r [|y k]] eqn:Hf;
        [by left| |by left].
      right. exists pk, r.
      assert (r ∈ filter (ORM.matches
                 (I18nModel.pair_lookup pk (or_active language active))) rows)
        as [[Hs Hl]%matches_pair Hin]%list_elem_of_filter.
      { unfold ORM.filter_rows in Hf. rewrite Hf. by left. }
      done.
Qed.

Lemma tag_translate_or_original_witness :
  I18nManager.new Fixtures.site I18nManager.class_body !! "get_by_lang"
  = Some I18nManager.GetByLang
  ∧ TemplateTags.translate Fixtures.site
      (I18nManager.new Fixtures.site I18nManager.class_body)
      "en" [Fixtures.hallo] (TemplateTags.SourceInstance 7) (Some "de")
    = TemplateTags.Value (I18nManager.OneRow Fixtures.hallo)
  ∧ TemplateTags.translate Fixtures.site
      (I18nManager.new Fixtures.site I18nManager.class_body)
      "en" [Fixtures.hallo] (TemplateTags.SourceInstance 7) None
    = TemplateTags.Obj (TemplateTags.SourceInstance 7).
Proof.
  assert (I18nManager.new Fixtures.site I18nManager.class_body
            !! "get_by_lang" = Some I18nManager.GetByLang) as Hget
    by reflexivity.
  split; [exact Hget|].
  split.
  - destruct (tag_translate_or_original Fixtures.site
                (I18nManager.new Fixtures.site I18nManager.class_body)
                "en" [Fixtures.hallo] (TemplateTags.SourceInstance 7)
                (Some "de") Hget) as (_ & Hfound & _).
    apply Hfound. discriminate.
  - destruct (tag_translate_or_original Fixtures.site
                (I18nManager.new Fixtures.site I18nManager.class_body)
                "en" [Fixtures.hallo] (TemplateTags.SourceInstance 7)
                None Hget) as (Hdefault & _).
    apply Hdefault. reflexivity.
Defined.

(** * Further properties of the code *)

(** ** [split], [endswith] and the slice of the class name *)

Section python_strings.

Import PyStr.

Local Arguments String.append !_ _ / : simpl nomatch.

Lemma append_empty_r (s : string) : (s ++ "")%string = s.
Proof. induction s as [|c s IH]; simpl; [done|by rewrite IH]. Qed.

Lemma append_assoc (a b c : string) :
  ((a ++ b) ++ c)%string = (a ++ (b ++ c))%string.
Proof. induction a as [|x a IH]; simpl; [done|by rewrite IH]. Qed.

Lemma length_append (a b : string) :
  String.length (a ++ b) = (String.length a + String.length b)%nat.
Proof. induction a as [|x a IH]; simpl; [done|by rewrite IH]. Qed.

Lemma rev_app_append (a b c : string) :
  (String.rev_app a b ++ c)%string = String.rev_app a (b ++ c).
Proof.
  revert b. induction a as [|x a IH]; intros b; simpl; [done|].
  by rewrite IH.
Qed.

Lemma rev_cons (d : ascii) (acc rest : string) :
  (String.rev (String d acc) ++ rest)%string
  = (String.rev acc ++ String d rest)%string.
Proof. unfold String.rev. simpl. by rewrite !rev_app_append. Qed.

Lemma contains_char_append (c : ascii) (a b : string) :
  contains_char c (a ++ b) = contains_char c a || contains_char c b.
Proof.
  induction a as [|x a IH]; simpl; [done|]. by destruct (Ascii.eqb c x).
Qed.

Lemma contains_char_rev_app (c : ascii) (a b : string) :
  contains_char c (String.rev_app a b) = contains_char c a || contains_char c b.
Proof.
  revert b. induction a as [|x a IH]; intros b; simpl; [done|].
  rewrite IH. simpl. destruct (Ascii.eqb c x); [|done].
  by rewrite orb_true_r.
Qed.

Lemma split_aux_nonempty (sep : ascii) (acc s : string) :
  split_aux sep acc s ≠ [].
Proof.
  revert acc. induction s as [|d s IH]; intros acc; simpl; [done|].
  destruct (Ascii.eqb sep d); [done|apply IH].
Qed.

Lemma concat_cons (sep x : string) (xs : list string) :
  xs ≠ [] →
  String.concat sep (x :: xs) = (x ++ sep ++ String.concat sep xs)%string.
Proof. by destruct xs. Qed.

Lemma split_aux_concat (sep : ascii) (acc s : string) :
  String.concat (String sep "") (split_aux sep acc s)
  = (String.rev acc ++ s)%string.
Proof.
  revert acc. induction s as [|d s IH]; intros acc; simpl.
  - by rewrite append_empty_r.
  - destruct (Ascii.eqb sep d) eqn:Hd.
    + apply Ascii.eqb_eq in Hd as <-.
      rewrite concat_cons, IH by apply split_aux_nonempty. done.
    + by rewrite IH, rev_cons.
Qed.

Lemma split_aux_pieces (sep : ascii) (acc s : string) :
  contains_char sep acc = false →
  Forall (λ piece, contains_char sep piece = false) (split_aux sep acc s).
Proof.
  revert acc. induction s as [|d s IH]; intros acc Hacc; simpl.
  - apply Forall_singleton. unfold String.rev.
    by rewrite contains_char_rev_app, Hacc.
  - destruct (Ascii.eqb sep d) eqn:Hd.
    + apply Forall_cons. split; [|by apply IH].
      unfold String.rev. by rewrite contains_char_rev_app, Hacc.
    + apply IH. simpl. by rewrite Hd.
Qed.

Lemma split_aux_prefix (sep : ascii) (acc a b : string) :
  contains_char sep a = false →
  split_aux sep acc (a ++ String sep b)
  = (String.rev acc ++ a)%string :: split_aux sep "" b.
Proof.
  revert acc. induction a as [|d a IH]; intros acc Ha; simpl in *.
  - by rewrite Ascii.eqb_refl, append_empty_r.
  - destruct (Ascii.eqb sep d); [done|]. by rewrite IH, rev_cons.
Qed.

Lemma split_aux_no_separator (sep : ascii) (acc s : string) :
  contains_char sep s = false →
  split_aux sep acc s = [(String.rev acc ++ s)%string].
Proof.
  revert acc. induction s as [|d s IH]; intros acc Hs; simpl in *.
  - by rewrite append_empty_r.
  - destruct (Ascii.eqb sep d); [done|]. by rewrite IH, rev_cons.
Qed.

Lemma split_no_separator (sep : ascii) (s : string) :
  contains_char sep s = false → split sep s = [s].
Proof. intros Hs. unfold split. by rewrite split_aux_no_separator. Qed.

Lemma split_prefix (sep : ascii) (a b : string) :
  contains_char sep a = false →
  split sep (a ++ String sep b) = a :: split sep b.
Proof. intros Ha. unfold split. by rewrite split_aux_prefix. Qed.

Lemma split_aux_separator (sep : ascii) (acc s : string) :
  contains_char sep s = true → (2 ≤ length (split_aux sep acc s))%nat.
Proof.
  revert acc. induction s as [|d s IH]; intros acc Hs; simpl in *; [done|].
  destruct (Ascii.eqb sep d).
  - pose proof (split_aux_nonempty sep "" s).
    destruct (split_aux sep "" s); [done|]. simpl. lia.
  - by apply IH.
Qed.

Lemma substring_prefix (a b : string) :
  String.substring 0 (String.length a) (a ++ b) = a.
Proof.
  induction a as [|x a IH]; simpl; [by destruct b|by rewrite IH].
Qed.

Lemma substring_all (b : string) :
  String.substring 0 (String.length b) b = b.
Proof. induction b as [|x b IH]; simpl; [done|by rewrite IH]. Qed.

Lemma substring_suffix (a b : string) :
  String.substring (String.length a) (String.length b) (a ++ b) = b.
Proof. induction a as [|x a IH]; simpl; [apply substring_all|done]. Qed.

Lemma substring_cut (k : nat) (s : string) :
  (k ≤ String.length s)%nat →
  s = (String.substring 0 k s
       ++ String.substring k (String.length s - k) s)%string.
Proof.
  revert k. induction s as [|x s IH]; intros k Hk; simpl in *.
  - by destruct k.
  - destruct k as [|k]; simpl.
    + by rewrite substring_all.
    + f_equal. apply IH. lia.
Qed.

End python_strings.

(** ** Resolution of the source, by kind of [source_model] *)

Lemma split_dotted (app rest : string) :
  PyStr.contains_char "." app = false →
  PyStr.split "." (app ++ String "." rest) = app :: PyStr.split "." rest.
Proof. apply split_prefix. Qed.

Lemma contains_dotted (app rest : string) :
  PyStr.contains_char "." (app ++ String "." rest) = true.
Proof. rewrite contains_char_append. simpl. by rewrite orb_true_r. Qed.

(** X1. A [source_model] string [app.Model] resolves to the model that the
    registry holds for (app, Model), whatever the name of the class; further
    dotted components are ignored, [app.Model.more] resolving to the same
    model. *)
Theorem dotted_source_uses_two_components
    (env : environment) (cls_name : string) (attrs : class_attrs)
    (app model : string) (m : Model) :
  PyStr.contains_char "." app = false →
  PyStr.contains_char "." model = false →
  get_model env app model = Some m →
  I18nBase.resolve_source env cls_name attrs
    (Some (SrcStr (app ++ String "." model))) = Ok m
  ∧ ∀ more,
      I18nBase.resolve_source env cls_name attrs
        (Some (SrcStr (app ++ String "." (model ++ String "." more)))) = Ok m.
Proof.
  intros Happ Hmodel Hget. split; [|intros more].
  - rewrite resolve_dotted_source by apply contains_dotted.
    rewrite split_dotted, split_no_separator by done. simpl.
    by rewrite Hget.
  - rewrite resolve_dotted_source by apply contains_dotted.
    rewrite !split_dotted by done. simpl. by rewrite Hget.
Qed.

Lemma dotted_source_uses_two_components_witness :
  PyStr.contains_char "." "blog" = false
  ∧ PyStr.contains_char "." "Post" = false
  ∧ get_model Samples.site_registry "blog" "Post" = Some Fixtures.Post
  ∧ I18nBase.resolve_source Samples.site_registry "Translation"
      (Fixtures.body (mkMeta (Some (SrcStr "blog.Post")) None None))
      (Some (SrcStr "blog.Post")) = Ok Fixtures.Post.
Proof.
  split; [reflexivity|]. split; [reflexivity|]. split; [reflexivity|].
  apply (dotted_source_uses_two_components Samples.site_registry
           "Translation"
           (Fixtures.body (mkMeta (Some (SrcStr "blog.Post")) None None))
           "blog" "Post" Fixtures.Post); reflexivity.
Defined.

Lemma endswith_append (base suffix : string) :
  PyStr.endswith (base ++ suffix) suffix = true.
Proof.
  unfold PyStr.endswith. rewrite length_append.
  rewrite (proj2 (Nat.leb_le _ _)) by lia.
  replace (String.length base + String.length suffix
           - String.length suffix)%nat with (String.length base) by lia.
  rewrite substring_suffix. apply String.eqb_refl.
Qed.

Lemma drop_last_append (base suffix : string) :
  PyStr.drop_last (String.length suffix) (base ++ suffix) = base.
Proof.
  unfold PyStr.drop_last. rewrite length_append.
  replace (String.length base + String.length suffix
           - String.length suffix)%nat with (String.length base) by lia.
  apply substring_prefix.
Qed.

Lemma endswith_true (s suffix : string) :
  PyStr.endswith s suffix = true →
  s = (PyStr.drop_last (String.length suffix) s ++ suffix)%string.
Proof.
  unfold PyStr.endswith, PyStr.drop_last.
  destruct (String.length suffix <=? String.length s)%nat eqn:Hlen; [|done].
  apply Nat.leb_le in Hlen. intros Heq%String.eqb_eq.
  rewrite (substring_cut (String.length s - String.length suffix) s) at 1
    by lia.
  f_equal.
  replace (String.length s - (String.length s - String.length suffix))%nat
    with (String.length suffix) by lia.
  exact Heq.
Qed.

(** X2. Without [source_model], a class named [<Base>I18N] is resolved to
    what [get_class] finds under [<Base>] in the defining module, errors of
    the lookup included; a class whose name does not end with [I18N] is a
    configuration error. *)
Theorem source_by_naming_convention
    (env : environment) (attrs : class_attrs) :
  (∀ base,
     I18nBase.resolve_source env (base ++ "I18N") attrs None
     = get_class env base (__module__ attrs))
  ∧ (∀ cls_name,
       PyStr.endswith cls_name "I18N" = false →
       I18nBase.resolve_source env cls_name attrs None
       = Raise (ImproperlyConfigured "Please specify the source model"))
  ∧ (∀ cls_name,
       PyStr.endswith cls_name "I18N" = true →
       cls_name = (PyStr.drop_last 4 cls_name ++ "I18N")%string).
Proof.
  split; [|split].
  - intros base. unfold I18nBase.resolve_source. simpl.
    rewrite endswith_append.
    replace (PyStr.drop_last 4 (base ++ "I18N")) with base
      by (symmetry; apply (drop_last_append base "I18N")).
    by destruct (get_class env base (__module__ attrs)).
  - intros cls_name Hsuffix. unfold I18nBase.resolve_source. simpl.
    by rewrite Hsuffix.
  - intros cls_name Hsuffix. exact (endswith_true cls_name "I18N" Hsuffix).
Qed.

(** X3. An explicit source that is not a dotted string never falls back on
    the naming convention: a class is used as it is, a bare name is what
    [get_class] finds in the defining module (so a missing class raises the
    error of the lookup, not a configuration error), and the empty string is
    a configuration error even for a class named [<Base>I18N]. *)
Theorem explicit_source_no_fallback
    (env : environment) (cls_name : string) (attrs : class_attrs) :
  (∀ m, I18nBase.resolve_source env cls_name attrs (Some (SrcClass m)) = Ok m)
  ∧ (∀ s, s ≠ "" → PyStr.contains_char "." s = false →
          I18nBase.resolve_source env cls_name attrs (Some (SrcStr s))
          = get_class env s (__module__ attrs))
  ∧ I18nBase.resolve_source env cls_name attrs (Some (SrcStr ""))
    = Raise (ImproperlyConfigured "Please specify the source model").
Proof.
  split; [done|]. split; [|done].
  intros s Hne Hdot. unfold I18nBase.resolve_source, I18nBase.lookup_source.
  destruct s as [|c s]; [done|]. rewrite Hdot.
  by destruct (get_class env _ _).
Qed.

(** ** Outcomes of [I18nBase.new] *)

Lemma add_source_language_empty (ut : pyval) :
  py_items ut = [] →
  I18nBase.add_source_language (Some ut) = Raise IndexError.
Proof.
  destruct ut as [s|items|items]; simpl.
  - by destruct s.
  - by intros ->.
  - by intros ->.
Qed.

Lemma add_source_language_nonempty (ut : pyval) :
  py_items ut ≠ [] →
  ∃ ut0, I18nBase.add_source_language (Some ut) = Ok ut0.
Proof.
  destruct ut as [s|items|items]; simpl; intros Hne.
  - destruct s; [done|]. simpl. eauto.
  - destruct items as [|x items]; [done|]. simpl.
    destruct (is_str x); eauto.
  - destruct items as [|x items]; [done|]. simpl.
    destruct (is_str x); eauto.
Qed.

(** X4. For a subclass of [I18nModel], the metaclass makes the class exactly
    when the body has a [Meta], the source resolves and a declared
    [unique_together] is not empty: the fields of the source and the list of
    translated fields never make it fail. *)
Theorem new_succeeds_iff
    (env : environment) (cls_name : string) (bases : list string)
    (attrs : class_attrs) :
  "I18nModel" ∈ bases →
  (∃ cls', I18nBase.new env cls_name bases attrs = Ok cls')
  ↔ ∃ meta source,
      Meta attrs = Some meta
      ∧ I18nBase.resolve_source env cls_name attrs (source_model meta)
        = Ok source
      ∧ ∀ ut, unique_together meta = Some ut → py_items ut ≠ [].
Proof.
  intros Hbases. split.
  - intros [cls' Hnew].
    destruct (new_Ok_inv _ _ _ _ Hbases _ Hnew)
      as (meta & source & ut0 & _ & Hmeta & Hsource & Hut0 & _).
    exists meta, source. split; [done|]. split; [done|].
    intros ut Hut Hempty. rewrite Hut in Hut0.
    by rewrite add_source_language_empty in Hut0.
  - intros (meta & source & Hmeta & Hsource & Hut).
    destruct (unique_together meta) as [ut|] eqn:Hdecl.
    + destruct (add_source_language_nonempty ut) as [ut0 Hut0]; [by apply Hut|].
      eapply new_Ok_intro; [done..|]. by rewrite Hdecl.
    + eapply new_Ok_intro; [done..|]. by rewrite Hdecl.
Qed.

Lemma new_succeeds_iff_witness :
  "I18nModel" ∈ ["I18nModel"]
  ∧ ∃ cls',
      I18nBase.new Fixtures.blog "PostI18N" ["I18nModel"]
        (Fixtures.body (mkMeta None (Some ["title"])
                          (Some Fixtures.title_slug))) = Ok cls'.
Proof.
  assert ("I18nModel" ∈ ["I18nModel"]) as Hbases by (by left).
  split; [exact Hbases|].
  apply (new_succeeds_iff Fixtures.blog "PostI18N" ["I18nModel"]
           (Fixtures.body (mkMeta None (Some ["title"])
                             (Some Fixtures.title_slug))) Hbases).
  exists (mkMeta None (Some ["title"]) (Some Fixtures.title_slug)),
         Fixtures.Post.
  split; [reflexivity|]. split; [reflexivity|].
  by intros ut [= <-].
Defined.

(** X5. How a subclass of [I18nModel] fails to be made: a body without
    [Meta] raises [KeyError], also when the name follows the naming
    convention; an error of the resolution of the source is raised as it is;
    an empty [unique_together] raises [IndexError]. *)
Theorem new_failure_modes
    (env : environment) (cls_name : string) (bases : list string)
    (attrs : class_attrs) :
  "I18nModel" ∈ bases →
  (Meta attrs = None →
   I18nBase.new env cls_name bases attrs = Raise KeyError)
  ∧ (∀ meta e,
       Meta attrs = Some meta →
       I18nBase.resolve_source env cls_name attrs (source_model meta)
       = Raise e →
       I18nBase.new env cls_name bases attrs = Raise e)
  ∧ (∀ meta source ut,
       Meta attrs = Some meta →
       I18nBase.resolve_source env cls_name attrs (source_model meta)
       = Ok source →
       unique_together meta = Some ut → py_items ut = [] →
       I18nBase.new env cls_name bases attrs = Raise IndexError).
Proof.
  intros Hbases. unfold I18nBase.new.
  rewrite bool_decide_eq_true_2 by done. simpl.
  split; [|split].
  - by intros ->.
  - intros meta e -> Hsource. simpl. by rewrite Hsource.
  - intros meta source ut -> Hsource Hut Hempty. simpl. rewrite Hsource.
    simpl. destruct (I18nBase.copy_fields _ _ _) as [members' unique_fields].
    rewrite Hut. by rewrite add_source_language_empty.
Qed.

Lemma new_failure_modes_witness :
  "I18nModel" ∈ ["I18nModel"]
  ∧ I18nBase.new Fixtures.blog "PostI18N" ["I18nModel"]
      (mkAttrs "blog.models" None ∅) = Raise KeyError
  ∧ I18nBase.new Fixtures.blog "PostI18N" ["I18nModel"]
      (Fixtures.body (mkMeta None None (Some (PTuple [])))) = Raise IndexError.
Proof.
  assert ("I18nModel" ∈ ["I18nModel"]) as Hbases by (by left).
  split; [exact Hbases|]. split.
  - by apply (new_failure_modes Fixtures.blog "PostI18N" ["I18nModel"]
                (mkAttrs "blog.models" None ∅) Hbases).
  - destruct (new_failure_modes Fixtures.blog "PostI18N" ["I18nModel"]
                (Fixtures.body (mkMeta None None (Some (PTuple [])))) Hbases)
      as (_ & _ & Hempty).
    by apply (Hempty (mkMeta None None (Some (PTuple []))) Fixtures.Post
                (PTuple [])).
Defined.

(** ** What the class made by [I18nBase.new] holds *)

Lemma resolve_fields_default (source : Model) (declared : option (list string)) :
  declared = None ∨ declared = Some [] →
  ∀ n, n ∈ I18nBase.resolve_fields source declared
       ↔ ∃ f, f ∈ _meta_fields source ∧ name f = n
              ∧ ftype f ∈ [TextField; CharField; SlugField].
Proof.
  intros Hdecl n.
  assert (I18nBase.resolve_fields source declared
          = name <$> filter (λ f, I18nBase.is_text_field f)
                            (_meta_fields source)) as ->
    by (by destruct Hdecl as [-> | ->]).
  rewrite list_elem_of_fmap. split.
  - intros (f & -> & [Htext Hin]%list_elem_of_filter). exists f.
    split; [done|]. split; [done|].
    unfold I18nBase.is_text_field in Htext. by apply bool_decide_unpack in Htext.
  - intros (f & Hin & <- & Htext). exists f. split; [done|].
    apply list_elem_of_filter. split; [|done].
    unfold I18nBase.is_text_field. by apply bool_decide_pack.
Qed.

(** X6. Without [translation_fields], or with an empty one, the fields
    copied are the fields of the source whose class is exactly [TextField],
    [CharField] or [SlugField]: each such name is bound to a copy that is not
    flagged unique, and a name that no such field has keeps what the class
    body bound it to. *)
Theorem default_fields_are_text_fields
    (env : environment) (cls_name : string) (bases : list string)
    (attrs cls' : class_attrs) (meta : meta_options) (source : Model) :
  "I18nModel" ∈ bases →
  I18nBase.new env cls_name bases attrs = Ok cls' →
  Meta attrs = Some meta →
  I18nBase.resolve_source env cls_name attrs (source_model meta) = Ok source →
  translation_fields meta = None ∨ translation_fields meta = Some [] →
  (∀ f, f ∈ _meta_fields source →
        ftype f ∈ [TextField; CharField; SlugField] →
        name f ≠ "i18n_source" →
        ∃ g, g ∈ _meta_fields source ∧ name g = name f
             ∧ members cls' !! name f
               = Some (AField (mkField (name f) (ftype g) false)))
  ∧ (∀ n, n ≠ "i18n_source" →
          (∀ f, f ∈ _meta_fields source → name f = n →
                ftype f ∉ [TextField; CharField; SlugField]) →
          members cls' !! n = members attrs !! n).
Proof.
  intros Hbases Hnew Hmeta Hsource Hdecl.
  destruct (new_Ok_inv _ _ _ _ Hbases _ Hnew)
    as (meta' & source' & _ & _ & Hmeta' & Hsource' & _ & _ & _ & Hmem).
  rewrite Hmeta in Hmeta'. injection Hmeta' as <-.
  rewrite Hsource in Hsource'. injection Hsource' as <-.
  unfold I18nBase.copy_fields in Hmem.
  pose proof (resolve_fields_default source (translation_fields meta) Hdecl)
    as Hfields.
  split.
  - intros f Hf Htext Hfk.
    destruct (copy_fields_lookup_copied
                (I18nBase.resolve_fields source (translation_fields meta))
                (_meta_fields source) (members attrs) [] (name f))
      as (g & Hg & Hname & Hlook).
    { apply Hfields. by exists f. }
    { by apply list_elem_of_fmap_2. }
    exists g. split; [done|]. split; [done|].
    by rewrite Hmem, lookup_insert_ne.
  - intros n Hfk Hnone. rewrite Hmem, lookup_insert_ne by done.
    apply copy_fields_lookup_other.
    intros [(f & Hf & Hname & Htext)%Hfields _]. by eapply Hnone.
Qed.

Lemma default_fields_are_text_fields_witness :
  "I18nModel" ∈ ["I18nModel"]
  ∧ I18nBase.new Fixtures.blog "PostI18N" ["I18nModel"]
      (Fixtures.body (mkMeta None None None)) = Ok Fixtures.PostI18N
  ∧ members Fixtures.PostI18N !! "views" = None.
Proof.
  assert ("I18nModel" ∈ ["I18nModel"]) as Hbases by (by left).
  assert (I18nBase.new Fixtures.blog "PostI18N" ["I18nModel"]
            (Fixtures.body (mkMeta None None None)) = Ok Fixtures.PostI18N)
    as Hnew by (vm_compute; reflexivity).
  split; [exact Hbases|]. split; [exact Hnew|].
  destruct (default_fields_are_text_fields Fixtures.blog "PostI18N"
              ["I18nModel"] (Fixtures.body (mkMeta None None None))
              Fixtures.PostI18N (mkMeta None None None) Fixtures.Post
              Hbases Hnew eq_refl eq_refl (or_introl eq_refl))
    as [_ Hkept].
  rewrite (Hkept "views"); [reflexivity|discriminate|].
  intros f Hf Hname. simpl in Hf.
  repeat (apply elem_of_cons in Hf as [->|Hf]; [try discriminate Hname|]);
    [|by apply elem_of_nil in Hf].
  intros Hin. repeat (apply elem_of_cons in Hin as [Hin|Hin]; [discriminate Hin|]).
  by apply elem_of_nil in Hin.
Defined.

(** X7. The [unique_together] of the class made holds the entries that the
    declared value and the pair (source, language) give, followed by one
    entry (i18n_language, field) for each field of the source that is
    translated and flagged unique, in the order of the fields of the source
    and not in the order of [translation_fields]. *)
Theorem unique_together_of_new
    (env : environment) (cls_name : string) (bases : list string)
    (attrs cls' : class_attrs) (meta : meta_options) (source : Model) :
  "I18nModel" ∈ bases →
  I18nBase.new env cls_name bases attrs = Ok cls' →
  Meta attrs = Some meta →
  I18nBase.resolve_source env cls_name attrs (source_model meta) = Ok source →
  ∃ ut0 ut,
    I18nBase.add_source_language (unique_together meta) = Ok ut0
    ∧ Meta cls' ≫= unique_together = Some ut
    ∧ is_seq ut
    ∧ py_items ut
      = (py_items ut0
         ++ (language_with <$>
               (name <$>
                  filter (λ f, name f ∈ I18nBase.resolve_fields source
                                          (translation_fields meta)
                               ∧ _unique f = true)
                         (_meta_fields source))))%list.
Proof. intros Hbases. by apply new_unique_together. Qed.

Lemma unique_together_of_new_witness :
  "I18nModel" ∈ ["I18nModel"]
  ∧ I18nBase.new Samples.site_registry "Translation" ["I18nModel"]
      (Fixtures.body (mkMeta (Some (SrcClass Samples.Page))
                        (Some ["slug"; "code"]) None))
    = Ok Samples.PageTranslation
  ∧ ∃ ut,
      Meta Samples.PageTranslation ≫= unique_together = Some ut
      ∧ py_items ut
        = [I18nBase.source_language; language_with "code";
           language_with "slug"].
Proof.
  assert ("I18nModel" ∈ ["I18nModel"]) as Hbases by (by left).
  assert (I18nBase.new Samples.site_registry "Translation" ["I18nModel"]
            (Fixtures.body (mkMeta (Some (SrcClass Samples.Page))
                              (Some ["slug"; "code"]) None))
          = Ok Samples.PageTranslation) as Hnew by (vm_compute; reflexivity).
  split; [exact Hbases|]. split; [exact Hnew|].
  destruct (unique_together_of_new Samples.site_registry "Translation"
              ["I18nModel"]
              (Fixtures.body (mkMeta (Some (SrcClass Samples.Page))
                                (Some ["slug"; "code"]) None))
              Samples.PageTranslation
              (mkMeta (Some (SrcClass Samples.Page)) (Some ["slug"; "code"])
                 None)
              Samples.Page Hbases Hnew eq_refl eq_refl)
    as (ut0 & ut & Hut0 & Hut & _ & Hitems).
  exists ut. split; [exact Hut|].
  injection Hut0 as <-. rewrite Hitems. reflexivity.
Defined.

Lemma copy_fields_lookup_cases (fields : list string) (l : list Field)
    (attrs : gmap string class_attr) (acc : list string) (n : string) :
  (foldl (I18nBase.copy_field fields) (attrs, acc) l).1 !! n = attrs !! n
  ∨ ∃ f, f ∈ l
         ∧ (foldl (I18nBase.copy_field fields) (attrs, acc) l).1 !! n
           = Some (AField (mkField n (ftype f) false)).
Proof.
  destruct (decide (n ∈ fields ∧ n ∈ name <$> l)) as [[Hin Hl]|Hnot].
  - right. destruct (copy_fields_lookup_copied fields l attrs acc n Hin Hl)
      as (f & Hf & _ & Hlook). by exists f.
  - left. by apply copy_fields_lookup_other.
Qed.

(** X8. The class made refers to the resolved source through the foreign key
    [i18n_source], related name [translations], not editable, whatever the
    body or the source bound that name to; its [Meta] has lost
    [source_model] and [translation_fields]; its module is that of the
    body. *)
Theorem new_adds_the_source_reference
    (env : environment) (cls_name : string) (bases : list string)
    (attrs cls' : class_attrs) (meta : meta_options) (source : Model) :
  "I18nModel" ∈ bases →
  I18nBase.new env cls_name bases attrs = Ok cls' →
  Meta attrs = Some meta →
  I18nBase.resolve_source env cls_name attrs (source_model meta) = Ok source →
  members cls' !! "i18n_source"
  = Some (AForeignKey source "translations" false)
  ∧ Meta cls' ≫= source_model = None
  ∧ Meta cls' ≫= translation_fields = None
  ∧ __module__ cls' = __module__ attrs.
Proof.
  intros Hbases Hnew Hmeta Hsource.
  destruct (new_Ok_inv _ _ _ _ Hbases _ Hnew)
    as (meta' & source' & _ & ut & Hmeta' & Hsource' & _ & _ & HM & Hmem).
  rewrite Hmeta in Hmeta'. injection Hmeta' as <-.
  rewrite Hsource in Hsource'. injection Hsource' as <-.
  split; [by rewrite Hmem, lookup_insert_eq|].
  rewrite HM. split; [done|]. split; [done|].
  unfold I18nBase.new in Hnew.
  rewrite bool_decide_eq_true_2 in Hnew by done. simpl in Hnew.
  rewrite Hmeta in Hnew. simpl in Hnew. rewrite Hsource in Hnew.
  simpl in Hnew. destruct (I18nBase.copy_fields _ _ _) as [m u].
  destruct (I18nBase.add_source_language _); simpl in Hnew; [|done].
  destruct (I18nBase.add_unique_fields _ _); simpl in Hnew; [|done].
  by injection Hnew as <-.
Qed.

Lemma new_adds_the_source_reference_witness :
  "I18nModel" ∈ ["I18nModel"]
  ∧ I18nBase.new Fixtures.blog "PostI18N" ["I18nModel"]
      (Fixtures.body (mkMeta None None None)) = Ok Fixtures.PostI18N
  ∧ members Fixtures.PostI18N !! "i18n_source"
    = Some (AForeignKey Fixtures.Post "translations" false).
Proof.
  assert ("I18nModel" ∈ ["I18nModel"]) as Hbases by (by left).
  assert (I18nBase.new Fixtures.blog "PostI18N" ["I18nModel"]
            (Fixtures.body (mkMeta None None None)) = Ok Fixtures.PostI18N)
    as Hnew by (vm_compute; reflexivity).
  split; [exact Hbases|]. split; [exact Hnew|].
  apply (new_adds_the_source_reference Fixtures.blog "PostI18N"
           ["I18nModel"] (Fixtures.body (mkMeta None None None))
           Fixtures.PostI18N (mkMeta None None None) Fixtures.Post
           Hbases Hnew eq_refl eq_refl).
Defined.

(** X9. The metaclass flags no field unique: a field of the class made that
    is flagged unique was bound under the same name, flagged unique, by the
    class body itself. *)
Theorem new_flags_no_field_unique
    (env : environment) (cls_name : string) (bases : list string)
    (attrs cls' : class_attrs) (n : string) (f : Field) :
  "I18nModel" ∈ bases →
  I18nBase.new env cls_name bases attrs = Ok cls' →
  members cls' !! n = Some (AField f) →
  _unique f = true →
  members attrs !! n = Some (AField f).
Proof.
  intros Hbases Hnew Hn Hu.
  destruct (new_Ok_inv _ _ _ _ Hbases _ Hnew)
    as (meta & source & _ & _ & _ & _ & _ & _ & _ & Hmem).
  rewrite Hmem in Hn.
  destruct (decide (n = "i18n_source")) as [->|Hfk].
  - by rewrite lookup_insert_eq in Hn.
  - rewrite lookup_insert_ne in Hn by done.
    unfold I18nBase.copy_fields in Hn.
    destruct (copy_fields_lookup_cases
                (I18nBase.resolve_fields source (translation_fields meta))
                (_meta_fields source) (members attrs) [] n)
      as [Hsame|(g & _ & Hcopy)].
    + by rewrite <-Hsame.
    + rewrite Hcopy in Hn. injection Hn as <-. done.
Qed.

Lemma new_flags_no_field_unique_witness :
  "I18nModel" ∈ ["I18nModel"]
  ∧ I18nBase.new Fixtures.blog "PostI18N" ["I18nModel"]
      (Samples.body_with_key (mkMeta None None None))
    = Ok Samples.PostI18N_with_key
  ∧ members (Samples.body_with_key (mkMeta None None None)) !! "key"
    = Some (AField (mkField "key" CharField true)).
Proof.
  assert ("I18nModel" ∈ ["I18nModel"]) as Hbases by (by left).
  assert (I18nBase.new Fixtures.blog "PostI18N" ["I18nModel"]
            (Samples.body_with_key (mkMeta None None None))
          = Ok Samples.PostI18N_with_key) as Hnew
    by (vm_compute; reflexivity).
  split; [exact Hbases|]. split; [exact Hnew|].
  apply (new_flags_no_field_unique Fixtures.blog "PostI18N" ["I18nModel"]
           (Samples.body_with_key (mkMeta None None None))
           Samples.PostI18N_with_key "key" (mkField "key" CharField true)
           Hbases Hnew); reflexivity.
Defined.

(** ** The namespace made by [I18nManager.new] *)

Lemma new_lookup_indep (settings : Settings)
    (cls cls' : gmap string I18nManager.method) (n : string) :
  (∃ code, code ∈ (LANGUAGES settings).*1
           ∧ I18nManager.accessor_name code = n) →
  I18nManager.new settings cls !! n = I18nManager.new settings cls' !! n.
Proof.
  unfold I18nManager.new.
  induction (LANGUAGES settings) as [|language l IH] using rev_ind;
    intros (code & Hcode & Hname); [by apply elem_of_nil in Hcode|].
  rewrite !foldl_snoc. simpl.
  destruct (decide (I18nManager.accessor_name language.1 = n)) as [<-|Hne].
  - by rewrite !lookup_insert_eq.
  - rewrite !lookup_insert_ne by done. apply IH. exists code.
    split; [|done]. rewrite fmap_app in Hcode.
    apply elem_of_app in Hcode as [Hcode|Hcode]; [done|].
    apply list_elem_of_singleton in Hcode. simpl in Hcode. congruence.
Qed.

(** X10. Instantiating the manager again changes nothing: the [setattr]s of
    [__new__] applied to a class that already went through them give the
    same class. *)
Theorem new_is_idempotent
    (settings : Settings) (cls : gmap string I18nManager.method) :
  I18nManager.new settings (I18nManager.new settings cls)
  = I18nManager.new settings cls.
Proof.
  apply map_eq. intros n.
  destruct (decide (n ∈ I18nManager.accessor_name <$> (LANGUAGES settings).*1))
    as [Hin|Hout].
  - apply new_lookup_indep.
    apply list_elem_of_fmap in Hin as (code & -> & Hcode). by exists code.
  - rewrite new_lookup_other; [done|].
    intros code Hcode <-. apply Hout. by apply list_elem_of_fmap_2.
Qed.

(** X11. [__new__] binds the accessor names of the configured languages and
    nothing else: the names of the class afterwards are its names before and
    those accessor names, and every other name keeps its binding, the four
    methods of the class body among them unless a language takes their
    name. *)
Theorem new_binds_accessor_names_only
    (settings : Settings) (cls : gmap string I18nManager.method) :
  dom (I18nManager.new settings cls)
  = dom cls
    ∪ list_to_set (I18nManager.accessor_name <$> (LANGUAGES settings).*1)
  ∧ ∀ n, n ∉ I18nManager.accessor_name <$> (LANGUAGES settings).*1 →
         I18nManager.new settings cls !! n = cls !! n.
Proof.
  split.
  - unfold I18nManager.new.
    induction (LANGUAGES settings) as [|language l IH] using rev_ind.
    + simpl. by rewrite (right_id_L ∅ (∪)).
    + rewrite foldl_snoc, !fmap_app, list_to_set_app_L. simpl.
      rewrite dom_insert_L, IH, (right_id_L ∅ (∪)).
      rewrite (comm_L (∪) {[_]}). by rewrite (assoc_L (∪)).
  - intros n Hn. apply new_lookup_other.
    intros code Hcode <-. apply Hn. by apply list_elem_of_fmap_2.
Qed.



Lemma replace_no_dash (s : string) :
  PyStr.contains_char "-" (PyStr.replace "-" "_" s) = false.
Proof.
  induction s as [|c s IH]; [done|].
  cbn [PyStr.replace PyStr.contains_char].
  destruct (Ascii.eqb "-" c) eqn:Hc; [|by rewrite Hc].
  by change (Ascii.eqb "-" "_") with false.
Qed.

Lemma replace_without_dash (s : string) :
  PyStr.contains_char "-" s = false → PyStr.replace "-" "_" s = s.
Proof.
  induction s as [|c s IH]; [done|].
  cbn [PyStr.replace PyStr.contains_char].
  destruct (Ascii.eqb "-" c); [done|]. intros Hs. by rewrite IH.
Qed.

Lemma replace_length (a b : ascii) (s : string) :
  String.length (PyStr.replace a b s) = String.length s.
Proof. induction s as [|c s IH]; [done|]. simpl. by rewrite IH. Qed.

(** X13. The name of an accessor has no dash and the length of the code; a
    code without dash is its own accessor name, so normalizing twice changes
    nothing. *)
Theorem accessor_name_has_no_dash (code : string) :
  PyStr.contains_char "-" (I18nManager.accessor_name code) = false
  ∧ String.length (I18nManager.accessor_name code) = String.length code
  ∧ (PyStr.contains_char "-" code = false →
     I18nManager.accessor_name code = code)
  ∧ I18nManager.accessor_name (I18nManager.accessor_name code)
    = I18nManager.accessor_name code.
Proof.
  unfold I18nManager.accessor_name.
  split; [apply replace_no_dash|]. split; [apply replace_length|].
  split; [apply replace_without_dash|].
  apply replace_without_dash, replace_no_dash.
Qed.

(** ** The queries of the manager *)

Lemma by_language_related (rows : list row) (pk : Z) (code : string) :
  I18nManager.by_language code
    (ORM.filter_rows [("i18n_source", VInt pk)] rows)
  = ORM.filter_rows (I18nModel.pair_lookup pk code) rows.
Proof. apply related_by_language. Qed.

Lemma pair_rows_cases constraints (rows : list row) pk code :
  pair_columns ∈ constraints → respects constraints rows →
  ORM.filter_rows (I18nModel.pair_lookup pk code) rows = []
  ∨ ∃ r, ORM.filter_rows (I18nModel.pair_lookup pk code) rows = [r].
Proof.
  intros Hin Hres. pose proof (pair_unique _ rows pk code Hin Hres) as Hle.
  destruct (ORM.filter_rows _ rows) as [|r [|y k]]; [by left|right; eauto|].
  simpl in Hle. lia.
Qed.

(** X14. Across the relation: on the manager of the translations of a
    source, the accessor of a language of a well-formed language set returns
    the rows of the pair (source, language), and in a table that respects the
    constraint (source, language) there is at most one. *)
Theorem related_accessor_returns_the_pair
    (settings : Settings) (constraints : list (list string))
    (rows : list row) (pk : Z) (code active : string) :
  language_set_ok settings →
  code ∈ (LANGUAGES settings).*1 →
  pair_columns ∈ constraints →
  respects constraints rows →
  I18nManager.call (I18nManager.new settings I18nManager.class_body) active
    (ORM.filter_rows [("i18n_source", VInt pk)] rows)
    (I18nManager.accessor_name code) []
  = Ok (I18nManager.QuerySet
          (ORM.filter_rows (I18nModel.pair_lookup pk code) rows))
  ∧ (length (ORM.filter_rows (I18nModel.pair_lookup pk code) rows) ≤ 1)%nat.
Proof.
  intros Hok Hcode Hin Hres. split; [|by eapply pair_unique].
  destruct (Hok code Hcode) as (_ & _ & Hinj).
  destruct (new_lookup_accessor settings I18nManager.class_body code Hcode)
    as (code' & Hin' & Hname & Hlook).
  rewrite (Hinj code' Hin' Hname) in Hlook.
  unfold I18nManager.call. rewrite Hlook. simpl.
  by rewrite by_language_related.
Qed.

Lemma related_accessor_returns_the_pair_witness :
  language_set_ok Samples.two_languages
  ∧ "de" ∈ (LANGUAGES Samples.two_languages).*1
  ∧ pair_columns ∈ [pair_columns]
  ∧ respects [pair_columns] [Fixtures.hallo]
  ∧ I18nManager.call
      (I18nManager.new Samples.two_languages I18nManager.class_body) "en"
      (ORM.filter_rows [("i18n_source", VInt 7)] [Fixtures.hallo]) "de" []
    = Ok (I18nManager.QuerySet [Fixtures.hallo]).
Proof.
  assert (language_set_ok Samples.two_languages) as Hok.
  { intros code Hcode. simpl in Hcode.
    repeat (apply elem_of_cons in Hcode as [->|Hcode]);
      [| |by apply elem_of_nil in Hcode];
      (split; [done|]; split; [done|]);
      intros code' Hcode'; simpl in Hcode';
      repeat (apply elem_of_cons in Hcode' as [->|Hcode']);
      try (by apply elem_of_nil in Hcode'); done. }
  assert ("de" ∈ (LANGUAGES Samples.two_languages).*1) as Hcode
    by (right; by left).
  assert (pair_columns ∈ [pair_columns]) as Hin by (by left).
  assert (respects [pair_columns] [Fixtures.hallo]) as Hres
    by (intros [|i] [|j] r r' Hne Hi Hj; done).
  split; [exact Hok|]. split; [exact Hcode|]. split; [exact Hin|].
  split; [exact Hres|].
  apply (related_accessor_returns_the_pair Samples.two_languages
           [pair_columns] [Fixtures.hallo] 7 "de" "en" Hok Hcode Hin Hres).
Defined.

(** X15. With [lang] and [current_language] bound as in the class body:
    [current_language()] and [lang()] return the rows in the active
    language, and so does [lang('')], the empty code being falsy; [lang] with
    a code that is not empty returns the rows in that code; and
    [current_language] takes no argument. *)
Theorem lang_defaults_to_the_active_language
    (cls : gmap string I18nManager.method) (active : string)
    (self : list row) :
  cls !! "lang" = Some I18nManager.Lang →
  cls !! "current_language" = Some I18nManager.CurrentLanguage →
  I18nManager.call cls active self "current_language" []
  = Ok (I18nManager.QuerySet (I18nManager.by_language active self))
  ∧ I18nManager.call cls active self "lang" []
    = Ok (I18nManager.QuerySet (I18nManager.by_language active self))
  ∧ I18nManager.call cls active self "lang" [""]
    = Ok (I18nManager.QuerySet (I18nManager.by_language active self))
  ∧ (∀ code, code ≠ "" →
       I18nManager.call cls active self "lang" [code]
       = Ok (I18nManager.QuerySet (I18nManager.by_language code self)))
  ∧ (∀ code,
       I18nManager.call cls active self "current_language" [code]
       = Raise TypeError).
Proof.
  intros Hlang Hcurrent. unfold I18nManager.call.
  rewrite Hlang, Hcurrent. simpl.
  split; [done|]. split; [done|]. split; [done|]. split; [|done].
  intros code Hne. by destruct code.
Qed.

Lemma lang_defaults_to_the_active_language_witness :
  I18nManager.new Fixtures.site I18nManager.class_body !! "lang"
  = Some I18nManager.Lang
  ∧ I18nManager.new Fixtures.site I18nManager.class_body
      !! "current_language" = Some I18nManager.CurrentLanguage
  ∧ I18nManager.call (I18nManager.new Fixtures.site I18nManager.class_body)
      "de" [Fixtures.hallo] "current_language" []
    = Ok (I18nManager.QuerySet
            (I18nManager.by_language "de" [Fixtures.hallo])).
Proof.
  assert (I18nManager.new Fixtures.site I18nManager.class_body !! "lang"
          = Some I18nManager.Lang) as Hlang by reflexivity.
  assert (I18nManager.new Fixtures.site I18nManager.class_body
            !! "current_language" = Some I18nManager.CurrentLanguage)
    as Hcurrent by reflexivity.
  split; [exact Hlang|]. split; [exact Hcurrent|].
  apply (lang_defaults_to_the_active_language
           (I18nManager.new Fixtures.site I18nManager.class_body)
           "de" [Fixtures.hallo] Hlang Hcurrent).
Defined.

(** X16. With [get_by_lang] bound as in the class body, on the manager of
    the translations of a source in a table that respects the constraint
    (source, language): [get_by_lang(code)] raises [DoesNotExist] when the
    pair has no row and returns its only row otherwise, and never raises
    [MultipleObjectsReturned]; the language is the active one when the code
    is empty. *)
Theorem get_by_lang_on_a_source
    (cls : gmap string I18nManager.method) (constraints : list (list string))
    (rows : list row) (pk : Z) (code active : string) :
  cls !! "get_by_lang" = Some I18nManager.GetByLang →
  pair_columns ∈ constraints →
  respects constraints rows →
  (ORM.filter_rows
     (I18nModel.pair_lookup pk (or_active (Some code) active)) rows = []
   ∧ I18nManager.call cls active
       (ORM.filter_rows [("i18n_source", VInt pk)] rows) "get_by_lang" [code]
     = Raise DoesNotExist)
  ∨ ∃ r,
      ORM.filter_rows
        (I18nModel.pair_lookup pk (or_active (Some code) active)) rows = [r]
      ∧ I18nManager.call cls active
          (ORM.filter_rows [("i18n_source", VInt pk)] rows)
          "get_by_lang" [code]
        = Ok (I18nManager.OneRow r).
Proof.
  intros Hget Hin Hres.
  rewrite call_get_by_lang by done. unfold ORM.get.
  rewrite related_by_language.
  destruct (pair_rows_cases constraints rows pk
              (or_active (Some code) active) Hin Hres) as [Hnone|[r Hone]].
  - left. by rewrite Hnone.
  - right. exists r. by rewrite Hone.
Qed.

Lemma get_by_lang_on_a_source_witness :
  I18nManager.class_body !! "get_by_lang" = Some I18nManager.GetByLang
  ∧ pair_columns ∈ [pair_columns]
  ∧ respects [pair_columns] [Fixtures.hallo]
  ∧ I18nManager.call I18nManager.class_body "en"
      (ORM.filter_rows [("i18n_source", VInt 7)] [Fixtures.hallo])
      "get_by_lang" ["fr"]
    = Raise DoesNotExist.
Proof.
  assert (I18nManager.class_body !! "get_by_lang"
          = Some I18nManager.GetByLang) as Hget by reflexivity.
  assert (pair_columns ∈ [pair_columns]) as Hin by (by left).
  assert (respects [pair_columns] [Fixtures.hallo]) as Hres
    by (intros [|i] [|j] r r' Hne Hi Hj; done).
  split; [exact Hget|]. split; [exact Hin|]. split; [exact Hres|].
  destruct (get_by_lang_on_a_source I18nManager.class_body [pair_columns]
              [Fixtures.hallo] 7 "fr" "en" Hget Hin Hres)
    as [[_ Hcall]|(r & Hone & _)]; [exact Hcall|].
  vm_compute in Hone. discriminate Hone.
Defined.

(** ** More on [translate] *)

Lemma filter_insert_other {A} (P : A → Prop) `{!∀ x, Decision (P x)}
    (l : list A) i x x' :
  l !! i = Some x → ¬ P x → ¬ P x' →
  filter P (<[i := x']> l) = filter P l.
Proof.
  intros Hi Hx Hx'.
  assert (i < length l)%nat as Hlt by (by eapply lookup_lt_Some).
  rewrite insert_take_drop by done.
  rewrite <-(take_drop_middle l i x Hi) at 3.
  by rewrite !filter_app, !filter_cons, !decide_False.
Qed.

Lemma matches_other_pair (r : row) source language source' language' :
  ORM.matches (I18nModel.pair_lookup source language) r →
  (source', language') ≠ (source, language) →
  ¬ ORM.matches (I18nModel.pair_lookup source' language') r.
Proof.
  intros [Hs Hl]%matches_pair Hne [Hs' Hl']%matches_pair.
  apply Hne. congruence.
Qed.

(** X17. Without updates [translate] only reads: it returns the table as it
    was with the one row of the pair, raises [DoesNotExist] exactly when the
    pair has no row and [MultipleObjectsReturned] exactly when it has
    several, and raises nothing else. *)
Theorem translate_without_updates_reads
    (t : ORM.table) (rows : list row)
    (source : Z) (language : string) :
  (∀ r rows',
     I18nModel.translate t rows source language ∅ = Ok (r, rows') →
     rows' = rows
     ∧ ORM.filter_rows (I18nModel.pair_lookup source language) rows = [r]
     ∧ r ∈ rows
     ∧ r !! "i18n_source" = Some (VInt source)
     ∧ r !! "i18n_language" = Some (VStr language))
  ∧ (I18nModel.translate t rows source language ∅
     = Raise DoesNotExist
     ↔ ORM.filter_rows (I18nModel.pair_lookup source language) rows = [])
  ∧ (I18nModel.translate t rows source language ∅
     = Raise MultipleObjectsReturned
     ↔ (2 ≤ length (ORM.filter_rows
                      (I18nModel.pair_lookup source language) rows))%nat)
  ∧ (∀ e,
       I18nModel.translate t rows source language ∅ = Raise e →
       e = DoesNotExist ∨ e = MultipleObjectsReturned).
Proof.
  unfold I18nModel.translate. rewrite bool_decide_eq_true_2 by done.
  unfold ORM.get.
  destruct (ORM.filter_rows (I18nModel.pair_lookup source language) rows)
    as [|r [|y k]] eqn:Hf; simpl.
  - split; [done|]. split; [done|]. split; [split; [done|lia]|].
    intros e [= <-]. by left.
  - split; [|split; [done|split; [split; [done|lia]|done]]].
    intros r0 rows' [= <- <-].
    assert (r ∈ filter (ORM.matches (I18nModel.pair_lookup source language))
                       rows)
      as [[Hs Hl]%matches_pair Hin]%list_elem_of_filter.
    { unfold ORM.filter_rows in Hf. rewrite Hf. by left. }
    done.
  - split; [done|]. split; [done|]. split; [split; [lia|done]|].
    intros e [= <-]. by right.
Qed.

(** X18. What [translate] wrote is what it reads back: after a call with
    updates of the content, the call without updates returns the same row on
    the same table, and the row holds every update. *)
Theorem translate_then_read
    (t : ORM.table) (rows : list row)
    (source : Z) (language : string) (kwargs : gmap string val)
    (r' : row) (rows' : list row) :
  well_kept t rows → kwargs ≠ ∅ → content_only t kwargs →
  I18nModel.translate t rows source language kwargs
  = Ok (r', rows') →
  I18nModel.translate t rows' source language ∅ = Ok (r', rows')
  ∧ ∀ key v, kwargs !! key = Some v → r' !! key = Some v.
Proof.
  intros Hok Hne Hcontent Htr.
  destruct (translate_Ok _ _ _ _ _ _ _ Hok Hne Hcontent Htr)
    as (_ & Hf & Hcase).
  split.
  - unfold I18nModel.translate. rewrite bool_decide_eq_true_2 by done.
    apply get_Ok in Hf. by rewrite Hf.
  - intros key v Hkey.
    destruct (content_only_lookup _ _ _ _ Hcontent Hkey)
      as (_ & Hid & Hs & Hl).
    destruct Hcase as [(i & r & _ & _ & -> & _)|(_ & -> & _)].
    + by apply lookup_union_Some_l.
    + by rewrite !lookup_insert_ne.
Qed.

Lemma translate_then_read_witness :
  well_kept Samples.post_table [Fixtures.hallo]
  ∧ ({["title" := VStr "Guten Tag"]} : gmap string val) ≠ ∅
  ∧ content_only Samples.post_table {["title" := VStr "Guten Tag"]}
  ∧ I18nModel.translate Samples.post_table [Fixtures.hallo] 7 "de"
      {["title" := VStr "Guten Tag"]}
    = Ok (Fixtures.guten_tag, [Fixtures.guten_tag])
  ∧ I18nModel.translate Samples.post_table [Fixtures.guten_tag] 7 "de" ∅
    = Ok (Fixtures.guten_tag, [Fixtures.guten_tag]).
Proof.
  assert (well_kept Samples.post_table [Fixtures.hallo]) as Hok
    by apply well_kept_hallo.
  assert (({["title" := VStr "Guten Tag"]} : gmap string val) ≠ ∅) as Hne
    by done.
  assert (content_only Samples.post_table {["title" := VStr "Guten Tag"]}) as Hcontent
    by apply content_only_title.
  assert (I18nModel.translate Samples.post_table [Fixtures.hallo] 7 "de"
            {["title" := VStr "Guten Tag"]}
          = Ok (Fixtures.guten_tag, [Fixtures.guten_tag])) as Htr
    by reflexivity.
  split; [exact Hok|]. split; [exact Hne|]. split; [exact Hcontent|].
  split; [exact Htr|].
  apply (translate_then_read Samples.post_table [Fixtures.hallo] 7 "de"
           {["title" := VStr "Guten Tag"]} Fixtures.guten_tag
           [Fixtures.guten_tag] Hok Hne Hcontent Htr).
Defined.

(** X19. [translate] keeps the invariant of the table, whatever the keyword
    arguments: after a call that returns, every row has a primary key and
    columns of the table only, and the primary key and the unique constraints
    are respected. *)
Theorem translate_keeps_the_table_invariant
    (t : ORM.table) (rows : list row)
    (source : Z) (language : string) (kwargs : gmap string val)
    (r' : row) (rows' : list row) :
  well_kept t rows →
  I18nModel.translate t rows source language kwargs
  = Ok (r', rows') →
  well_kept t rows'.
Proof. intros Hok Htr. by eapply translate_well_kept. Qed.

Lemma translate_keeps_the_table_invariant_witness :
  well_kept Samples.post_table [Fixtures.hallo]
  ∧ I18nModel.translate Samples.post_table [Fixtures.hallo] 7 "de"
      {["i18n_language" := VStr "fr"]}
    = Ok (<["i18n_language" := VStr "fr"]> Fixtures.hallo,
          [<["i18n_language" := VStr "fr"]> Fixtures.hallo])
  ∧ table_ok [pair_columns] [<["i18n_language" := VStr "fr"]> Fixtures.hallo].
Proof.
  assert (well_kept Samples.post_table [Fixtures.hallo]) as Hok
    by apply well_kept_hallo.
  assert (I18nModel.translate Samples.post_table [Fixtures.hallo] 7 "de"
            {["i18n_language" := VStr "fr"]}
          = Ok (<["i18n_language" := VStr "fr"]> Fixtures.hallo,
                [<["i18n_language" := VStr "fr"]> Fixtures.hallo])) as Htr
    by reflexivity.
  split; [exact Hok|]. split; [exact Htr|].
  apply (translate_keeps_the_table_invariant Samples.post_table
           [Fixtures.hallo] 7 "de" {["i18n_language" := VStr "fr"]} _ _
           Hok Htr).
Defined.

(** X20. A call of [translate] with updates of the content leaves the other
    pairs alone: the rows of any other (source, language) are the same before
    and after; and the table grows by one row when the pair had none, and
    keeps its length otherwise. *)
Theorem translate_leaves_other_pairs
    (t : ORM.table) (rows : list row)
    (source : Z) (language : string) (kwargs : gmap string val)
    (r' : row) (rows' : list row) :
  well_kept t rows → kwargs ≠ ∅ → content_only t kwargs →
  I18nModel.translate t rows source language kwargs
  = Ok (r', rows') →
  (∀ source' language',
     (source', language') ≠ (source, language) →
     ORM.filter_rows (I18nModel.pair_lookup source' language') rows'
     = ORM.filter_rows (I18nModel.pair_lookup source' language') rows)
  ∧ length rows'
    = match ORM.filter_rows (I18nModel.pair_lookup source language) rows with
      | [] => S (length rows)
      | _ => length rows
      end.
Proof.
  intros Hok Hne Hcontent Htr.
  destruct (translate_Ok _ _ _ _ _ _ _ Hok Hne Hcontent Htr)
    as (_ & Hf' & Hcase).
  assert (ORM.matches (I18nModel.pair_lookup source language) r') as Hm'.
  { assert (r' ∈ filter (ORM.matches (I18nModel.pair_lookup source language))
                        rows') as [? _]%list_elem_of_filter; [|done].
    unfold ORM.filter_rows in Hf'. rewrite Hf'. by left. }
  destruct Hcase as [(i & r & Hi & Hf & _ & ->)|(Hf & _ & ->)].
  - assert (ORM.matches (I18nModel.pair_lookup source language) r) as Hm.
    { assert (r ∈ filter (ORM.matches
                            (I18nModel.pair_lookup source language)) rows)
        as [? _]%list_elem_of_filter; [|done].
      unfold ORM.filter_rows in Hf. rewrite Hf. by left. }
    split.
    + intros source' language' Hother. unfold ORM.filter_rows.
      apply (filter_insert_other _ rows i r r' Hi);
        by eapply matches_other_pair.
    + by rewrite Hf, length_insert.
  - split.
    + intros source' language' Hother. unfold ORM.filter_rows.
      rewrite filter_app, filter_cons, decide_False
        by (by eapply matches_other_pair).
      by rewrite filter_nil, app_nil_r.
    + rewrite Hf, length_app. simpl. lia.
Qed.

Lemma translate_leaves_other_pairs_witness :
  well_kept Samples.post_table [Fixtures.hallo]
  ∧ ({["title" := VStr "Bonjour"]} : gmap string val) ≠ ∅
  ∧ content_only Samples.post_table {["title" := VStr "Bonjour"]}
  ∧ (∃ r' rows',
       I18nModel.translate Samples.post_table [Fixtures.hallo] 7 "fr"
         {["title" := VStr "Bonjour"]} = Ok (r', rows')
       ∧ ORM.filter_rows (I18nModel.pair_lookup 7 "de") rows'
         = ORM.filter_rows (I18nModel.pair_lookup 7 "de") [Fixtures.hallo]).
Proof.
  assert (well_kept Samples.post_table [Fixtures.hallo]) as Hok
    by apply well_kept_hallo.
  assert (({["title" := VStr "Bonjour"]} : gmap string val) ≠ ∅) as Hne
    by done.
  assert (content_only Samples.post_table {["title" := VStr "Bonjour"]}) as Hcontent
    by apply content_only_title.
  split; [exact Hok|]. split; [exact Hne|]. split; [exact Hcontent|].
  destruct (I18nModel.translate Samples.post_table [Fixtures.hallo] 7 "fr"
              {["title" := VStr "Bonjour"]}) as [[r' rows']|e] eqn:Htr;
    [|vm_compute in Htr; discriminate Htr].
  exists r', rows'. split; [reflexivity|].
  destruct (translate_leaves_other_pairs Samples.post_table [Fixtures.hallo]
              7 "fr" {["title" := VStr "Bonjour"]} r' rows'
              Hok Hne Hcontent Htr) as [Hother _].
  apply Hother. discriminate.
Defined.





(** X22. After a call of [translate] with updates of the content, the
    language is among the available languages of the source:
    [get_available_languages] on the manager of its translations returns one
    value per row of the source, the language of the call among them. *)
Theorem translated_language_is_available
    (cls : gmap string I18nManager.method) (active : string)
    (t : ORM.table) (rows : list row)
    (source : Z) (language : string) (kwargs : gmap string val)
    (r' : row) (rows' : list row) :
  cls !! "get_available_languages" = Some I18nManager.GetAvailableLanguages →
  well_kept t rows → kwargs ≠ ∅ → content_only t kwargs →
  I18nModel.translate t rows source language kwargs
  = Ok (r', rows') →
  ∃ vs,
    I18nManager.call cls active
      (ORM.filter_rows [("i18n_source", VInt source)] rows')
      "get_available_languages" []
    = Ok (I18nManager.Values vs)
    ∧ VStr language ∈ vs
    ∧ length vs
      = length (ORM.filter_rows [("i18n_source", VInt source)] rows').
Proof.
  intros Hget Hok Hne Hcontent Htr.
  destruct (translate_Ok _ _ _ _ _ _ _ Hok Hne Hcontent Htr)
    as (_ & Hf' & _).
  assert (r' ∈ filter (ORM.matches (I18nModel.pair_lookup source language))
                      rows')
    as [[Hs Hl]%matches_pair Hin]%list_elem_of_filter.
  { unfold ORM.filter_rows in Hf'. rewrite Hf'. by left. }
  unfold I18nManager.call. rewrite Hget. simpl.
  eexists. split; [done|]. split; [|by rewrite length_fmap].
  apply list_elem_of_fmap. exists r'. rewrite Hl. split; [done|].
  apply list_elem_of_filter. split; [|done].
  unfold ORM.matches. by rewrite Forall_singleton.
Qed.

Lemma translated_language_is_available_witness :
  I18nManager.class_body !! "get_available_languages"
  = Some I18nManager.GetAvailableLanguages
  ∧ well_kept Samples.post_table [Fixtures.hallo]
  ∧ ({["title" := VStr "Guten Tag"]} : gmap string val) ≠ ∅
  ∧ content_only Samples.post_table {["title" := VStr "Guten Tag"]}
  ∧ I18nModel.translate Samples.post_table [Fixtures.hallo] 7 "de"
      {["title" := VStr "Guten Tag"]}
    = Ok (Fixtures.guten_tag, [Fixtures.guten_tag])
  ∧ ∃ vs,
      I18nManager.call I18nManager.class_body "en"
        (ORM.filter_rows [("i18n_source", VInt 7)] [Fixtures.guten_tag])
        "get_available_languages" []
      = Ok (I18nManager.Values vs)
      ∧ VStr "de" ∈ vs.
Proof.
  assert (I18nManager.class_body !! "get_available_languages"
          = Some I18nManager.GetAvailableLanguages) as Hget by reflexivity.
  assert (well_kept Samples.post_table [Fixtures.hallo]) as Hok
    by apply well_kept_hallo.
  assert (({["title" := VStr "Guten Tag"]} : gmap string val) ≠ ∅) as Hne
    by done.
  assert (content_only Samples.post_table {["title" := VStr "Guten Tag"]}) as Hcontent
    by apply content_only_title.
  assert (I18nModel.translate Samples.post_table [Fixtures.hallo] 7 "de"
            {["title" := VStr "Guten Tag"]}
          = Ok (Fixtures.guten_tag, [Fixtures.guten_tag])) as Htr
    by reflexivity.
  split; [exact Hget|]. split; [exact Hok|]. split; [exact Hne|].
  split; [exact Hcontent|]. split; [exact Htr|].
  destruct (translated_language_is_available I18nManager.class_body "en"
              Samples.post_table [Fixtures.hallo] 7 "de"
              {["title" := VStr "Guten Tag"]} Fixtures.guten_tag
              [Fixtures.guten_tag] Hget Hok Hne Hcontent Htr)
    as (vs & Hcall & Hin & _).
  exists vs. by split.
Defined.

Lemma tag_translate_found (settings : Settings)
    (cls : gmap string I18nManager.method) (active : string)
    (rows : list row) (pk : Z) (language : option string) (r : row) :
  cls !! "get_by_lang" = Some I18nManager.GetByLang →
  or_active language active ≠ LANGUAGE_CODE settings →
  ORM.filter_rows (I18nModel.pair_lookup pk (or_active language active)) rows
  = [r] →
  TemplateTags.translate settings cls active rows
    (TemplateTags.SourceInstance pk) language
  = TemplateTags.Value (I18nManager.OneRow r).
Proof.
  intros Hget Hne Hf. unfold TemplateTags.translate.
  apply String.eqb_neq in Hne. rewrite Hne.
  unfold TemplateTags.translations, mbind, result_bind.
  rewrite call_get_by_lang, or_active_twice by done.
  unfold ORM.get. by rewrite related_by_language, Hf.
Qed.

(** X23. What [translate] wrote is what the template tag shows: after a call
    with updates of the content for a language that is neither empty nor the
    default one, the tag returns the row of that call for the source and the
    language. *)
Theorem tag_shows_what_translate_wrote
    (settings : Settings) (cls : gmap string I18nManager.method)
    (active : string) (t : ORM.table) (rows : list row)
    (source : Z) (language : string) (kwargs : gmap string val)
    (r' : row) (rows' : list row) :
  cls !! "get_by_lang" = Some I18nManager.GetByLang →
  language ≠ "" → language ≠ LANGUAGE_CODE settings →
  well_kept t rows → kwargs ≠ ∅ → content_only t kwargs →
  I18nModel.translate t rows source language kwargs
  = Ok (r', rows') →
  TemplateTags.translate settings cls active rows'
    (TemplateTags.SourceInstance source) (Some language)
  = TemplateTags.Value (I18nManager.OneRow r').
Proof.
  intros Hget Hnonempty Hdefault Hok Hne Hcontent Htr.
  destruct (translate_Ok _ _ _ _ _ _ _ Hok Hne Hcontent Htr)
    as (_ & Hf' & _).
  assert (or_active (Some language) active = language) as Hlang
    by (by destruct language).
  apply tag_translate_found; rewrite ?Hlang; done.
Qed.

Lemma tag_shows_what_translate_wrote_witness :
  I18nManager.class_body !! "get_by_lang" = Some I18nManager.GetByLang
  ∧ "de" ≠ "" ∧ "de" ≠ LANGUAGE_CODE Fixtures.site
  ∧ well_kept Samples.post_table [Fixtures.hallo]
  ∧ ({["title" := VStr "Guten Tag"]} : gmap string val) ≠ ∅
  ∧ content_only Samples.post_table {["title" := VStr "Guten Tag"]}
  ∧ I18nModel.translate Samples.post_table [Fixtures.hallo] 7 "de"
      {["title" := VStr "Guten Tag"]}
    = Ok (Fixtures.guten_tag, [Fixtures.guten_tag])
  ∧ TemplateTags.translate Fixtures.site I18nManager.class_body "en"
      [Fixtures.guten_tag] (TemplateTags.SourceInstance 7) (Some "de")
    = TemplateTags.Value (I18nManager.OneRow Fixtures.guten_tag).
Proof.
  assert (I18nManager.class_body !! "get_by_lang"
          = Some I18nManager.GetByLang) as Hget by reflexivity.
  assert ("de" ≠ "") as Hnonempty by discriminate.
  assert ("de" ≠ LANGUAGE_CODE Fixtures.site) as Hdefault by discriminate.
  assert (well_kept Samples.post_table [Fixtures.hallo]) as Hok
    by apply well_kept_hallo.
  assert (({["title" := VStr "Guten Tag"]} : gmap string val) ≠ ∅) as Hne
    by done.
  assert (content_only Samples.post_table {["title" := VStr "Guten Tag"]}) as Hcontent
    by apply content_only_title.
  assert (I18nModel.translate Samples.post_table [Fixtures.hallo] 7 "de"
            {["title" := VStr "Guten Tag"]}
          = Ok (Fixtures.guten_tag, [Fixtures.guten_tag])) as Htr
    by reflexivity.
  split; [exact Hget|]. split; [exact Hnonempty|]. split; [exact Hdefault|].
  split; [exact Hok|]. split; [exact Hne|]. split; [exact Hcontent|].
  split; [exact Htr|].
  apply (tag_shows_what_translate_wrote Fixtures.site I18nManager.class_body
           "en" Samples.post_table [Fixtures.hallo] 7 "de"
           {["title" := VStr "Guten Tag"]} Fixtures.guten_tag
           [Fixtures.guten_tag]
           Hget Hnonempty Hdefault Hok Hne Hcontent Htr).
Defined.

(** ** The admin inline *)

Lemma comprehension_pure {A} (P : A → Prop) `{!∀ x, Decision (P x)}
    (p : A → result bool) (l : list A) :
  (∀ x, x ∈ l → p x = Ok (bool_decide (P x))) →
  Admin.comprehension p l = Ok (filter P l).
Proof.
  induction l as [|x l IH]; intros Hp; [done|]. simpl.
  rewrite (Hp x) by (by left). simpl.
  rewrite IH by (intros y Hy; apply Hp; by right). simpl.
  rewrite filter_cons. by case_bool_decide; case_decide.
Qed.

Lemma comprehension_elem {A} (p : A → result bool) (l kept : list A) :
  Admin.comprehension p l = Ok kept →
  ∀ x, x ∈ kept → x ∈ l ∧ p x = Ok true.
Proof.
  revert kept. induction l as [|a l IH]; intros kept; simpl.
  - intros [= <-] x Hx. by apply elem_of_nil in Hx.
  - destruct (p a) as [keep|e] eqn:Hpa; simpl; [|done].
    destruct (Admin.comprehension p l) as [kept'|e] eqn:Hrest; simpl; [|done].
    intros [= <-] x Hx.
    assert (x ∈ kept' → x ∈ a :: l ∧ p x = Ok true) as Htail.
    { intros Hin. destruct (IH kept' eq_refl x Hin). split; [by right|done]. }
    destruct keep; [|by apply Htail].
    apply elem_of_cons in Hx as [->|Hx]; [|by apply Htail].
    split; [by left|done].
Qed.

Lemma filter_fst (Q : string → Prop) `{!∀ c, Decision (Q c)}
    `{!∀ lang : string * string, Decision (Q lang.1)}
    (languages : list (string * string)) :
  (filter (λ lang : string * string, Q lang.1) languages).*1
  = filter Q (languages.*1).
Proof.
  induction languages as [|lang l IH]; [done|].
  rewrite fmap_cons, !filter_cons. simpl.
  destruct (decide (Q lang.1)) as [Hq|Hq].
  - rewrite decide_True by done. by rewrite fmap_cons, IH.
  - by rewrite decide_False by done.
Qed.

Lemma available_language_iff (rows : list row) (pk : Z) (code : string) :
  VStr code ∈ ((λ t : row, default VNone (t !! "i18n_language"))
                 <$> Admin.translations rows pk)
  ↔ ORM.filter_rows (I18nModel.pair_lookup pk code) rows ≠ [].
Proof.
  unfold Admin.translations, ORM.filter_rows. rewrite list_elem_of_fmap.
  split.
  - intros (r & Hl & [Hs Hin]%list_elem_of_filter) Hnone.
    assert (r ∈ filter (ORM.matches (I18nModel.pair_lookup pk code)) rows)
      as Hr; [|rewrite Hnone in Hr; by apply elem_of_nil in Hr].
    apply list_elem_of_filter. split; [|done]. apply matches_pair.
    unfold ORM.matches in Hs. rewrite Forall_singleton in Hs. simpl in Hs.
    split; [done|]. destruct (r !! "i18n_language") as [v|]; simpl in Hl;
      congruence.
  - intros Hsome.
    destruct (filter (ORM.matches (I18nModel.pair_lookup pk code)) rows)
      as [|r k] eqn:Hf; [done|].
    assert (r ∈ filter (ORM.matches (I18nModel.pair_lookup pk code)) rows)
      as [[Hs Hl]%matches_pair Hin]%list_elem_of_filter
      by (rewrite Hf; by left).
    exists r. rewrite Hl. split; [done|].
    apply list_elem_of_filter. split; [|done].
    unfold ORM.matches. by rewrite Forall_singleton.
Qed.

Lemma untranslated_saved (settings : Settings)
    (cls : gmap string I18nManager.method) (active : string)
    (rows : list row) (pk : Z) :
  pk ≠ 0 →
  cls !! "get_available_languages" = Some I18nManager.GetAvailableLanguages →
  Admin.get_untranslated_languages settings cls active rows (Admin.Saved pk)
  = Ok (filter (λ code,
                  ORM.filter_rows (I18nModel.pair_lookup pk code) rows = []
                  ∧ code ≠ LANGUAGE_CODE settings)
               (LANGUAGES settings).*1).
Proof.
  intros Hpk Hget. unfold Admin.get_untranslated_languages. simpl.
  rewrite bool_decide_eq_false_2 by done.
  unfold I18nManager.call. rewrite Hget. simpl.
  rewrite (comprehension_pure
             (λ lang : string * string,
                ORM.filter_rows (I18nModel.pair_lookup pk lang.1) rows = []
                ∧ lang.1 ≠ LANGUAGE_CODE settings)).
  - simpl. f_equal.
    apply (filter_fst
             (λ code,
                ORM.filter_rows (I18nModel.pair_lookup pk code) rows = []
                ∧ code ≠ LANGUAGE_CODE settings)).
  - intros lang _. f_equal.
    pose proof (available_language_iff rows pk lang.1) as Hiff.
    destruct (decide (ORM.filter_rows
                        (I18nModel.pair_lookup pk lang.1) rows = []))
      as [Hnone|Hsome].
    + rewrite (bool_decide_eq_false_2 (VStr lang.1 ∈ _))
        by (by intros Hin%Hiff).
      simpl. apply bool_decide_ext. tauto.
    + rewrite (bool_decide_eq_true_2 (VStr lang.1 ∈ _)) by (by apply Hiff).
      simpl. symmetry. apply bool_decide_eq_false_2. tauto.
Qed.

(** X24. For a saved object (a primary key that is not 0), with
    [get_available_languages] bound as in the class body, the languages that
    the admin inline offers are the configured codes, in their order, that
    are not the default language and for which the object has no
    translation row. *)
Theorem untranslated_languages_of_a_saved_object
    (settings : Settings) (cls : gmap string I18nManager.method)
    (active : string) (rows : list row) (pk : Z) :
  pk ≠ 0 →
  cls !! "get_available_languages" = Some I18nManager.GetAvailableLanguages →
  ∃ offered,
    Admin.get_untranslated_languages settings cls active rows
      (Admin.Saved pk) = Ok offered
    ∧ offered
      = filter (λ code,
                  ORM.filter_rows (I18nModel.pair_lookup pk code) rows = []
                  ∧ code ≠ LANGUAGE_CODE settings)
               (LANGUAGES settings).*1
    ∧ ∀ code,
        code ∈ offered
        ↔ code ∈ (LANGUAGES settings).*1
          ∧ code ≠ LANGUAGE_CODE settings
          ∧ ORM.filter_rows (I18nModel.pair_lookup pk code) rows = [].
Proof.
  intros Hpk Hget. eexists. split; [by apply untranslated_saved|].
  split; [done|]. intros code. rewrite list_elem_of_filter. tauto.
Qed.

Lemma untranslated_languages_of_a_saved_object_witness :
  (7 : Z) ≠ 0
  ∧ I18nManager.class_body !! "get_available_languages"
    = Some I18nManager.GetAvailableLanguages
  ∧ Admin.get_untranslated_languages Fixtures.site I18nManager.class_body
      "en" [Fixtures.hallo] (Admin.Saved 7) = Ok ["pt-br"].
Proof.
  assert ((7 : Z) ≠ 0) as Hpk by discriminate.
  assert (I18nManager.class_body !! "get_available_languages"
          = Some I18nManager.GetAvailableLanguages) as Hget by reflexivity.
  split; [exact Hpk|]. split; [exact Hget|].
  destruct (untranslated_languages_of_a_saved_object Fixtures.site
              I18nManager.class_body "en" [Fixtures.hallo] 7 Hpk Hget)
    as (offered & Hcall & -> & _).
  exact Hcall.
Defined.

(** X25. For an object that is new ([None], an instance without primary key,
    or one whose key is 0), and whatever the table holds, the admin inline
    offers the codes of the choices of [i18n_language], finds no existing
    translation, and asks for [max_num] extra forms. *)
Theorem new_object_gets_every_choice
    (settings : Settings) (cls : gmap string I18nManager.method)
    (active : string) (rows : list row) (obj : Admin.admin_obj) :
  Admin.is_new obj = true →
  Admin.get_untranslated_languages settings cls active rows obj
  = Ok ((i18n_language_choices settings).*1)
  ∧ Admin.get_existing_translation cls active rows obj
    = Ok (I18nManager.Values [])
  ∧ Admin.get_extra settings cls active rows obj
    = Ok (Admin.max_num settings).
Proof.
  intros Hnew. unfold Admin.get_extra, Admin.get_untranslated_languages,
    Admin.get_existing_translation, Admin.max_num, i18n_language_choices.
  destruct obj as [| |pk]; [| |rewrite Hnew]; simpl;
    (split; [done|]; split; [done|]; f_equal; lia).
Qed.

Lemma new_object_gets_every_choice_witness :
  Admin.is_new (Admin.Saved 0) = true
  ∧ Admin.get_untranslated_languages Fixtures.site I18nManager.class_body
      "en" [Fixtures.hallo] (Admin.Saved 0) = Ok ["de"; "pt-br"]
  ∧ Admin.get_extra Fixtures.site I18nManager.class_body
      "en" [Fixtures.hallo] (Admin.Saved 0) = Ok 2.
Proof.
  assert (Admin.is_new (Admin.Saved 0) = true) as Hnew by reflexivity.
  split; [exact Hnew|].
  destruct (new_object_gets_every_choice Fixtures.site I18nManager.class_body
              "en" [Fixtures.hallo] (Admin.Saved 0) Hnew)
    as (Hoffered & _ & Hextra).
  split; [exact Hoffered|exact Hextra].
Defined.

(** X26. Whatever the object and the class of the manager, a language that
    the admin inline offers is one of the choices of [i18n_language]: it is
    a configured code and not the default language. *)
Theorem offered_languages_are_choices
    (settings : Settings) (cls : gmap string I18nManager.method)
    (active : string) (rows : list row) (obj : Admin.admin_obj)
    (offered : list string) (code : string) :
  Admin.get_untranslated_languages settings cls active rows obj
  = Ok offered →
  code ∈ offered →
  code ∈ (i18n_language_choices settings).*1
  ∧ code ≠ LANGUAGE_CODE settings.
Proof.
  intros Hcall Hcode.
  assert (code ∈ (i18n_language_choices settings).*1) as Hchoice.
  { unfold Admin.get_untranslated_languages in Hcall.
    destruct obj as [| |pk]; [by injection Hcall as <-..|].
    destruct (Admin.is_new (Admin.Saved pk)); [by injection Hcall as <-|].
    destruct (I18nManager.call _ _ _ _ _) as [translated|e]; [|done].
    simpl in Hcall.
    destruct (Admin.comprehension _ _) as [kept|e] eqn:Hkept; [|done].
    simpl in Hcall. injection Hcall as <-.
    apply list_elem_of_fmap in Hcode as (lang & -> & Hlang).
    destruct (comprehension_elem _ _ _ Hkept lang Hlang) as [Hin Hp].
    apply list_elem_of_fmap_2. apply list_elem_of_filter. split; [|done].
    destruct (Admin.py_in lang.1 translated) as [found|e]; [|done].
    simpl in Hp. injection Hp as Hp.
    apply andb_prop in Hp as [_ Hp]. by apply bool_decide_eq_true in Hp. }
  split; [done|].
  apply list_elem_of_fmap in Hchoice as (lang & -> & Hlang).
  unfold i18n_language_choices in Hlang.
  by apply list_elem_of_filter in Hlang as [? _].
Qed.

Lemma offered_languages_are_choices_witness :
  Admin.get_untranslated_languages Fixtures.site I18nManager.class_body
    "en" [Fixtures.hallo] (Admin.Saved 7) = Ok ["pt-br"]
  ∧ "pt-br" ∈ ["pt-br"]
  ∧ "pt-br" ∈ (i18n_language_choices Fixtures.site).*1.
Proof.
  assert (Admin.get_untranslated_languages Fixtures.site
            I18nManager.class_body "en" [Fixtures.hallo] (Admin.Saved 7)
          = Ok ["pt-br"]) as Hcall by reflexivity.
  assert ("pt-br" ∈ ["pt-br"]) as Hcode by (by left).
  split; [exact Hcall|]. split; [exact Hcode|].
  apply (offered_languages_are_choices Fixtures.site I18nManager.class_body
           "en" [Fixtures.hallo] (Admin.Saved 7) ["pt-br"] "pt-br"
           Hcall Hcode).
Defined.
